(** * The D-Bus message layer of [message.go]

    A shallow embedding of [Message], [IsValid], [EncodeTo] and
    [DecodeMessage] from package [dbus] (file [message.go]), and the
    properties of framing, validation and serialisation proved about it.

    Conventions.
    - A Go [byte] and a Go [uint32] are numbers in [N]; the bounds
      ([< 256], [< 2^32]) are stated where a property needs them, and
      every narrowing conversion of the source is written out.
    - A [[]byte] is a [list N].
    - [map[HeaderField]Variant] is a [gmap N Variant].  Go leaves the
      iteration order of a map unspecified; a [range] over a map is a
      parameter of the development, constrained only to enumerate the
      entries of the map.
    - [error] results are [option error], [None] being Go's [nil].
    - Go's [int] has 64 bits, so that [len] of a slice can exceed the
      range of a [uint32]. *)

From Stdlib Require Import NArith Ascii String List Lia.
From stdpp Require Import base option list strings gmap fin_maps.

Local Open Scope string_scope.
Local Open Scope list_scope.
Local Open Scope N_scope.

(** ** Constants and enumerations *)

Definition protoVersion : N := 1.

(** [Flags]: [1 << iota]. *)
Definition NoReplyExpected : N := N.shiftl 1 0.
Definition NoAutoStart : N := N.shiftl 1 1.

(** [Type]: [1 + iota]. *)
Definition TypeMethodCall : N := 1.
Definition TypeMethodReply : N := 2.
Definition TypeError : N := 3.
Definition TypeSignal : N := 4.
Definition typeMax : N := 5.

(** [HeaderField]: [1 + iota]. *)
Definition FieldPath : N := 1.
Definition FieldInterface : N := 2.
Definition FieldMember : N := 3.
Definition FieldErrorName : N := 4.
Definition FieldReplySerial : N := 5.
Definition FieldDestination : N := 6.
Definition FieldSender : N := 7.
Definition FieldSignature : N := 8.
Definition FieldUnixFds : N := 9.
Definition fieldMax : N := 10.

(** [binary.ByteOrder] is an interface: besides the two orders of
    [encoding/binary] a field of that type can hold [nil] or any other
    implementation. *)
Inductive ByteOrder : Set :=
| LittleEndian
| BigEndian
| OtherOrder.

(** [InvalidMessageError] is a string type; the remaining constructors
    are the errors of the byte streams underneath ([io.EOF],
    [io.ErrUnexpectedEOF], [io.ErrShortWrite], any other transport
    error) and a Go run-time panic. *)
Inductive error : Set :=
| InvalidMessageError (s : string)
| EOF
| ErrUnexpectedEOF
| ErrShortWrite
| TransportError (s : string)
| Panic (s : string).

(** ** Variants

    [reflect.Type] restricted to the dynamic types a header value is
    compared against, and a few that it is not. *)
Inductive GoType : Set :=
| objectPathType
| stringType
| uint32Type
| signatureType
| byteType
| boolType
| int32Type.

Global Instance GoType_eq_dec : EqDecision GoType.
Proof. solve_decision. Defined.

(** The dynamic value held in the [interface{}] of a [Variant]. *)
Inductive Value : Set :=
| VObjectPath (s : string)
| VString (s : string)
| VUint32 (n : N)
| VSignature (s : string)
| VByte (b : N)
| VBool (b : bool)
| VInt32 (n : N)
| VNil.

(** [reflect.TypeOf], which is [nil] on a [nil] interface. *)
Definition TypeOf (v : Value) : option GoType :=
  match v with
  | VObjectPath _ => Some objectPathType
  | VString _ => Some stringType
  | VUint32 _ => Some uint32Type
  | VSignature _ => Some signatureType
  | VByte _ => Some byteType
  | VBool _ => Some boolType
  | VInt32 _ => Some int32Type
  | VNil => None
  end.

Record Variant : Set := MkVariant { sig : string; value : Value }.

(** ** The header field registry *)

Definition fieldTypes : gmap N GoType :=
  list_to_map
    [ (FieldPath, objectPathType);
      (FieldInterface, stringType);
      (FieldMember, stringType);
      (FieldErrorName, stringType);
      (FieldReplySerial, uint32Type);
      (FieldDestination, stringType);
      (FieldSender, stringType);
      (FieldSignature, signatureType);
      (FieldUnixFds, uint32Type) ].

Definition requiredFields : gmap N (list N) :=
  list_to_map
    [ (TypeMethodCall, [FieldPath; FieldMember]);
      (TypeMethodReply, [FieldReplySerial]);
      (TypeError, [FieldErrorName; FieldReplySerial]);
      (TypeSignal, [FieldPath; FieldInterface; FieldMember]) ].

(** ** Messages *)

(** [Type] is a keyword of Rocq: the embedded field is [Type_]. *)
Record Message : Type := MkMessage {
  Order : ByteOrder;
  Type_ : N;
  Flags : N;
  Serial : N;
  Headers : gmap N Variant;
  Body : list N
}.

(** [header], the element of the header array on the wire. *)
Record header : Set := MkHeader { HeaderField : N; HeaderVariant : Variant }.

(** The operand [^x] of Go on a [byte]. *)
Definition not8 (x : N) : N := N.lxor 255 x.

(** ** Validation *)

(** The body of [for k, v := range message.Headers], over the entries in
    the order the iteration visits them. *)
Fixpoint checkHeaders (hs : list (N * Variant)) : option error :=
  match hs with
  | [] => None
  | (k, v) :: hs' =>
      if (k =? 0) || (fieldMax <=? k) then
        Some (InvalidMessageError "invalid header")
      else if bool_decide (TypeOf (value v) ≠ fieldTypes !! k) then
        Some (InvalidMessageError "invalid type of header field")
      else checkHeaders hs'
  end.

(** The body of [for _, v := range requiredFields[message.Type]]. *)
Fixpoint checkRequired (req : list N) (h : gmap N Variant) : option error :=
  match req with
  | [] => None
  | f :: req' =>
      match h !! f with
      | None => Some (InvalidMessageError "missing required header")
      | Some _ => checkRequired req' h
      end
  end.

Section Validation.

(** The order in which [range] visits the entries of a map. *)
Variable range : gmap N Variant → list (N * Variant).

Definition IsValid (message : Message) : option error :=
  match Order message with
  | LittleEndian | BigEndian =>
      if negb (N.land (Flags message) (not8 (N.lor NoAutoStart NoReplyExpected)) =? 0) then
        Some (InvalidMessageError "invalid flags")
      else if (Type_ message =? 0) || (typeMax <=? Type_ message) then
        Some (InvalidMessageError "invalid message type")
      else
        match checkHeaders (range (Headers message)) with
        | Some e => Some e
        | None =>
            match checkRequired (default [] (requiredFields !! Type_ message))
                                (Headers message) with
            | Some e => Some e
            | None =>
                if negb (length (Body message) =? 0)%nat then
                  match Headers message !! FieldSignature with
                  | None => Some (InvalidMessageError "missing signature")
                  | Some _ => None
                  end
                else None
            end
        end
  | OtherOrder => Some (InvalidMessageError "invalid byte order")
  end.

End Validation.

(** ** Byte streams

    An [io.Reader] over a sequence of bytes still to come.  The contract
    of [io.Reader] leaves it to the reader how many bytes a call of
    [Read] delivers ([0 <= n <= len(p)]) and whether it reports an error
    together with them.  A reader is its answer, the count and the
    error, to a [Read] on a buffer of [n] bytes when [avail] bytes are
    still to come. *)
Record Reader : Type := MkReader {
  deliver : nat → nat → nat * option error
}.

(** [rd.Read(p)] on a buffer [p] of [n] bytes that [make] has zeroed:
    the bytes delivered, never more than the buffer holds or the stream
    has, are copied to the front of the buffer and taken off the stream.
    [message.go] discards the count that [Read] returns, so the model
    returns the buffer, the error and the stream. *)
Definition Read (reader : Reader) (n : nat) (rd : list N) :
    list N * option error * list N :=
  let '(k, e) := deliver reader n (length rd) in
  let k := Nat.min k (Nat.min n (length rd)) in
  (take k rd ++ replicate (n - k) 0, e, drop k rd).

(** [bytes.Reader]: at the end of the data the call fails with
    [io.EOF]; otherwise it copies as many bytes as the buffer and the
    data allow and reports no error. *)
Definition bytesReader : Reader :=
  MkReader (λ n avail,
    match avail with
    | O => (O, Some EOF)
    | _ => (Nat.min n avail, None)
    end).

(** [iotest.OneByteReader] over a [bytes.Reader]: one byte for every
    call on a buffer that is not empty. *)
Definition oneByteReader : Reader :=
  MkReader (λ n avail,
    match n, avail with
    | O, _ => (O, None)
    | _, O => (O, Some EOF)
    | _, _ => (1%nat, None)
    end).

(** [iotest.DataErrReader] over a [bytes.Reader] whose data fit its
    buffer of 1024 bytes: the last bytes of the data come together with
    [io.EOF]. *)
Definition dataErrReader : Reader :=
  MkReader (λ n avail,
    if (avail <=? n)%nat then (avail, Some EOF) else (n, None)).

(** [io.Writer]: [Write p] returns the count of bytes it took and an
    error, and moves the sink to a new state. *)
Class Writer (W : Type) := Write : list N → W → nat * option error * W.

(** [bytes.Buffer.WriteTo]: one [Write] of the whole content when the
    buffer is not empty, none when it is. *)
Definition WriteTo {W} `{Writer W} (buf : list N) (w : W) : option error * W :=
  let nBytes := length buf in
  if (0 <? nBytes)%nat then
    let '(m, e, w') := Write buf w in
    if (nBytes <? m)%nat then
      (Some (Panic "bytes.Buffer.WriteTo: invalid Write count"), w')
    else match e with
         | Some e => (Some e, w')
         | None => if negb (m =? nBytes)%nat then (Some ErrShortWrite, w') else (None, w')
         end
  else (None, w).

(** A sink that records every [Write] it receives, in order. *)
Record Trace : Type := MkTrace { writes : list (list N) }.

Global Instance Trace_Writer : Writer Trace :=
  λ p w, (length p, None, MkTrace (writes w ++ [p])).

(** ** Fixed-width scalars of [encoding/binary] *)

Definition putUint32 (order : ByteOrder) (v : N) : list N :=
  let b0 := N.land v 255 in
  let b1 := N.land (N.shiftr v 8) 255 in
  let b2 := N.land (N.shiftr v 16) 255 in
  let b3 := N.land (N.shiftr v 24) 255 in
  match order with
  | LittleEndian => [b0; b1; b2; b3]
  | BigEndian => [b3; b2; b1; b0]
  | OtherOrder => []
  end.

Definition getUint32 (order : ByteOrder) (b : list N) : N :=
  match b with
  | [b0; b1; b2; b3] =>
      match order with
      | LittleEndian =>
          N.lor b0 (N.lor (N.shiftl b1 8) (N.lor (N.shiftl b2 16) (N.shiftl b3 24)))
      | BigEndian =>
          N.lor b3 (N.lor (N.shiftl b2 8) (N.lor (N.shiftl b1 16) (N.shiftl b0 24)))
      | OtherOrder => 0
      end
  | _ => 0
  end.

(** Bytes missing up to the next multiple of [n]. *)
Definition padding (pos n : nat) : nat := ((n - pos mod n) mod n)%nat.

(** ** The primitive codec

    [NewEncoder], [EncodeMulti], [NewDecoder], [DecodeMulti] and [align]
    belong to the encoder and the decoder of the package, which
    [message.go] only calls. *)

Record Encoder : Type := MkEncoder {
  enc_out : list N;
  enc_order : ByteOrder;
  enc_pos : nat
}.

Record Decoder : Type := MkDecoder {
  dec_rd : list N;
  dec_order : ByteOrder;
  dec_pos : nat
}.

(** Computations of the decoder: a result or an error, and the decoder
    after the call. *)
Definition Dec (A : Type) : Type := Decoder → (error + A) * Decoder.

Definition dret {A} (a : A) : Dec A := λ d, (inr a, d).
Definition dbind {A B} (c : Dec A) (k : A → Dec B) : Dec B :=
  λ d, match c d with
       | (inl e, d') => (inl e, d')
       | (inr a, d') => k a d'
       end.

Notation "x <- c ;; k" := (dbind c (λ x, k))
  (at level 100, c at next level, right associativity).

(** Modelled from the spec: a new encoder writes to [out] in the given
    byte order and counts its offset from 0. *)
Definition NewEncoder (out : list N) (order : ByteOrder) : Encoder :=
  MkEncoder out order 0.

(** Modelled from the spec: a new decoder reads from [rd] in the given
    byte order and counts its offset from 0. *)
Definition NewDecoder (rd : list N) (order : ByteOrder) : Decoder :=
  MkDecoder rd order 0.

(** Modelled from the spec: the encoder's [align], which inserts
    alignment padding so that the next value begins at a multiple of
    [n] bytes from the start of the message. *)
Definition enc_align (n : nat) (enc : Encoder) : Encoder :=
  let pad := padding (enc_pos enc) n in
  MkEncoder (enc_out enc ++ replicate pad 0) (enc_order enc) (enc_pos enc + pad).

(** Modelled from the spec: the encoder on a one-byte value. *)
Definition encodeByte (b : N) (enc : Encoder) : Encoder :=
  MkEncoder (enc_out enc ++ [b]) (enc_order enc) (enc_pos enc + 1).

(** Modelled from the spec: the encoder on a [uint32], four bytes in
    the encoder's byte order at a multiple of four. *)
Definition encodeUint32 (v : N) (enc : Encoder) : Encoder :=
  let enc := enc_align 4 enc in
  MkEncoder (enc_out enc ++ putUint32 (enc_order enc) v) (enc_order enc) (enc_pos enc + 4).

(** Modelled from the spec: the decoder's [align], which advances the
    stream to the next multiple of [n] bytes from the start of the
    message and discards the padding bytes; it reports no error. *)
Definition dec_align (n : nat) (dec : Decoder) : Decoder :=
  let pad := padding (dec_pos dec) n in
  MkDecoder (drop pad (dec_rd dec)) (dec_order dec) (dec_pos dec + pad).

(** Modelled from the spec: the decoder on a one-byte value; an error of
    the stream is passed on. *)
Definition decodeByte : Dec N :=
  λ dec, match dec_rd dec with
         | [] => (inl EOF, dec)
         | b :: rd => (inr b, MkDecoder rd (dec_order dec) (dec_pos dec + 1))
         end.

(** Modelled from the spec: the decoder on a [uint32], four bytes read
    in full in the decoder's byte order at a multiple of four. *)
Definition decodeUint32 : Dec N :=
  λ dec, let dec := dec_align 4 dec in
         match dec_rd dec with
         | [] => (inl EOF, dec)
         | _ => if (length (dec_rd dec) <? 4)%nat then
                  (inl ErrUnexpectedEOF, MkDecoder [] (dec_order dec) (dec_pos dec))
                else (inr (getUint32 (dec_order dec) (take 4 (dec_rd dec))),
                      MkDecoder (drop 4 (dec_rd dec)) (dec_order dec) (dec_pos dec + 4))
         end.

(** The codec of the header array, a length-prefixed array of
    (field code, variant) pairs: the bytes the encoder appends for it
    at a given offset in a given byte order, and the decoder's reading
    of it.  The encoder and the decoder of variants are not part of
    [message.go]; they are a parameter. *)
Record PrimitiveCodec : Type := MkCodec {
  encodeHeaders : ByteOrder → nat → list header → list N;
  decodeHeaders : Dec (list header)
}.

Definition encodeHeaderArray (codec : PrimitiveCodec) (hs : list header) (enc : Encoder) : Encoder :=
  let bs := encodeHeaders codec (enc_order enc) (enc_pos enc) hs in
  MkEncoder (enc_out enc ++ bs) (enc_order enc) (enc_pos enc + length bs).

(** The values [DecodeMulti] stores through its six pointers. *)
Record Preamble : Type := MkPreamble {
  p_type : N;
  p_flags : N;
  p_proto : N;
  p_length : N;
  p_serial : N;
  p_headers : list header
}.

(** A character constant of Go as a byte. *)
Definition char (c : ascii) : N := N_of_ascii c.

(** [switch b[0]] of [DecodeMessage]; [None] is the [default] case. *)
Definition orderOfMarker (b : N) : option ByteOrder :=
  if b =? char "l"%char then Some LittleEndian
  else if b =? char "B"%char then Some BigEndian
  else None.

(** [switch message.Order] of [EncodeTo], which has no [default]:
    [vs[0]] stays [nil] on any other order. *)
Definition markerOfOrder (order : ByteOrder) : option N :=
  match order with
  | LittleEndian => Some (char "l"%char)
  | BigEndian => Some (char "B"%char)
  | OtherOrder => None
  end.

(** [for _, v := range headers { message.Headers[v.HeaderField] = v.Variant }] *)
Definition buildHeaders (headers : list header) : gmap N Variant :=
  foldl (λ h v, <[HeaderField v := HeaderVariant v]> h) ∅ headers.

(** [for k, v := range message.Headers { headers = append(headers, header{k, v}) }],
    over the entries in the order the iteration visits them. *)
Definition flattenHeaders (entries : list (N * Variant)) : list header :=
  foldl (λ headers kv, headers ++ [MkHeader kv.1 kv.2]) [] entries.

Section MessageIO.

(** The reader that [DecodeMessage] is given. *)
Variable reader : Reader.

Variable codec : PrimitiveCodec.

(** The orders in which the [range] of [IsValid] and the [range] of
    [EncodeTo] visit the entries of a map. *)
Variable rangeV : gmap N Variant → list (N * Variant).
Variable rangeE : gmap N Variant → list (N * Variant).

(** [dec.DecodeMulti(&message.Type, &message.Flags, &proto, &length,
    &message.Serial, &headers)] *)
Definition DecodeMulti : Dec Preamble :=
  ty <- decodeByte ;;
  fl <- decodeByte ;;
  proto <- decodeByte ;;
  len <- decodeUint32 ;;
  serial <- decodeUint32 ;;
  headers <- decodeHeaders codec ;;
  dret (MkPreamble ty fl proto len serial headers).

(** [enc.EncodeMulti(vs...)], whose result [EncodeTo] discards. *)
Definition EncodeMulti (marker ty fl proto len serial : N) (headers : list header)
    (enc : Encoder) : Encoder :=
  let enc := encodeByte marker enc in
  let enc := encodeByte ty enc in
  let enc := encodeByte fl enc in
  let enc := encodeByte proto enc in
  let enc := encodeUint32 len enc in
  let enc := encodeUint32 serial enc in
  encodeHeaderArray codec headers enc.

(** [DecodeMessage]: the message or the error, and the stream as the
    call leaves it.  The decoder reads from the same stream; its offset
    is set to 1 for the marker byte that [DecodeMessage] reads itself. *)
Definition DecodeMessage (rd : list N) : (error + Message) * list N :=
  let '(b, err, rd) := Read reader 1 rd in
  match err with
  | Some e => (inl e, rd)
  | None =>
      match orderOfMarker (nth 0 b 0) with
      | None => (inl (InvalidMessageError "invalid byte order"), rd)
      | Some order =>
          let dec := NewDecoder rd order in
          let dec := MkDecoder (dec_rd dec) (dec_order dec) 1 in
          match DecodeMulti dec with
          | (inl e, dec) => (inl e, dec_rd dec)
          | (inr p, dec) =>
              let headers := buildHeaders (p_headers p) in
              let dec := dec_align 8 dec in
              let '(body, err, rd) :=
                if negb (p_length p =? 0) then
                  Read reader (N.to_nat (p_length p)) (dec_rd dec)
                else ([], None, dec_rd dec) in
              match err with
              | Some e => (inl e, rd)
              | None =>
                  let message :=
                    MkMessage order (p_type p) (p_flags p) (p_serial p) headers body in
                  match IsValid rangeV message with
                  | Some e => (inl e, rd)
                  | None => (inr message, rd)
                  end
              end
          end
      end
  end.

(** The content of [buf] when [EncodeTo] reaches [buf.WriteTo(out)]. *)
Definition assemble (marker : N) (message : Message) : list N :=
  let headers := flattenHeaders (rangeE (Headers message)) in
  let enc := NewEncoder [] LittleEndian in
  let enc := EncodeMulti marker (Type_ message) (Flags message) protoVersion
               (N.of_nat (length (Body message)) mod 2 ^ 32) (Serial message)
               headers enc in
  let enc := enc_align 8 enc in
  if negb (length (Body message) =? 0)%nat then enc_out enc ++ Body message
  else enc_out enc.

(** [EncodeTo]: the error, and the sink as the call leaves it.  After
    a successful validation the order is one of the two for which the
    [switch] sets a marker. *)
Definition EncodeTo {W} `{Writer W} (message : Message) (out : W) : option error * W :=
  match IsValid rangeV message with
  | Some err => (Some err, out)
  | None =>
      match markerOfOrder (Order message) with
      | None => (Some (Panic "nil value"), out)
      | Some marker => WriteTo (assemble marker message) out
      end
  end.

End MessageIO.

(** ** An instance of the codec

    Modelled from the spec: the header array as a length-prefixed array
    of (field code, variant) entries, a variant being a value paired with
    its wire-level type tag.  Where the spec leaves the layout of a value
    open, the layout is that of the D-Bus wire format: the array length
    counts the bytes of the entries, every entry starts at a multiple of
    eight, a string is its [uint32] length, its bytes and a zero byte, a
    signature the same with a one-byte length.  The instance serves to
    run the message layer on concrete messages and streams. *)
Module Wire.

Definition bytesOfString (s : string) : list N :=
  map N_of_ascii (list_ascii_of_string s).

Definition stringOfBytes (bs : list N) : string :=
  string_of_list_ascii (map ascii_of_N bs).

Definition encodeRaw (bs : list N) (enc : Encoder) : Encoder :=
  MkEncoder (enc_out enc ++ bs) (enc_order enc) (enc_pos enc + length bs).

Definition encodeString (s : string) (enc : Encoder) : Encoder :=
  let bs := bytesOfString s in
  encodeByte 0 (encodeRaw bs (encodeUint32 (N.of_nat (length bs)) enc)).

Definition encodeSignature (s : string) (enc : Encoder) : Encoder :=
  let bs := bytesOfString s in
  encodeByte 0 (encodeRaw bs (encodeByte (N.of_nat (length bs)) enc)).

Definition encodeValue (v : Value) (enc : Encoder) : Encoder :=
  match v with
  | VObjectPath s | VString s => encodeString s enc
  | VUint32 n | VInt32 n => encodeUint32 n enc
  | VSignature s => encodeSignature s enc
  | VByte b => encodeByte b enc
  | VBool b => encodeUint32 (if b then 1 else 0) enc
  | VNil => enc
  end.

Definition encodeHeader (h : header) (enc : Encoder) : Encoder :=
  let enc := encodeByte (HeaderField h) (enc_align 8 enc) in
  encodeValue (value (HeaderVariant h)) (encodeSignature (sig (HeaderVariant h)) enc).

Definition encodeHeaders (order : ByteOrder) (pos : nat) (hs : list header) : list N :=
  let start := (pos + padding pos 4 + 4)%nat in
  let offset := (start + padding start 8)%nat in
  let entries := enc_out (foldl (λ enc h, encodeHeader h enc) (MkEncoder [] order offset) hs) in
  replicate (padding pos 4) 0 ++ putUint32 order (N.of_nat (length entries))
    ++ replicate (padding start 8) 0 ++ entries.

Definition decodeRaw (n : N) : Dec (list N) :=
  λ dec, if N.of_nat (length (dec_rd dec)) <? n then
           (inl (if (length (dec_rd dec) =? 0)%nat then EOF else ErrUnexpectedEOF),
            MkDecoder [] (dec_order dec) (dec_pos dec))
         else (inr (take (N.to_nat n) (dec_rd dec)),
               MkDecoder (drop (N.to_nat n) (dec_rd dec)) (dec_order dec)
                         (dec_pos dec + N.to_nat n)).

Definition decodeString : Dec string :=
  n <- decodeUint32 ;; bs <- decodeRaw n ;; _ <- decodeByte ;; dret (stringOfBytes bs).

Definition decodeSignature : Dec string :=
  n <- decodeByte ;; bs <- decodeRaw n ;; _ <- decodeByte ;; dret (stringOfBytes bs).

Definition decodeValue (s : string) : Dec Value :=
  if String.eqb s "o" then (p <- decodeString ;; dret (VObjectPath p))
  else if String.eqb s "s" then (p <- decodeString ;; dret (VString p))
  else if String.eqb s "u" then (n <- decodeUint32 ;; dret (VUint32 n))
  else if String.eqb s "i" then (n <- decodeUint32 ;; dret (VInt32 n))
  else if String.eqb s "g" then (p <- decodeSignature ;; dret (VSignature p))
  else if String.eqb s "y" then (b <- decodeByte ;; dret (VByte b))
  else if String.eqb s "b" then (n <- decodeUint32 ;; dret (VBool (negb (n =? 0))))
  else λ dec, (inl (InvalidMessageError "invalid signature"), dec).

Definition decodeHeader : Dec header :=
  λ dec, (k <- decodeByte ;;
          s <- decodeSignature ;;
          v <- decodeValue s ;;
          dret (MkHeader k (MkVariant s v))) (dec_align 8 dec).

(** The entries up to offset [stop]; every entry takes bytes from the
    stream, so the length of the stream bounds their number. *)
Fixpoint decodeEntries (fuel : nat) (stop : N) : Dec (list header) :=
  λ dec, if stop <=? N.of_nat (dec_pos dec) then (inr [], dec)
         else match fuel with
              | O => (inl ErrUnexpectedEOF, dec)
              | S fuel =>
                  (h <- decodeHeader ;;
                   hs <- decodeEntries fuel stop ;;
                   dret (h :: hs)) dec
              end.

Definition decodeHeaders : Dec (list header) :=
  n <- decodeUint32 ;;
  (λ dec, let dec := dec_align 8 dec in
          decodeEntries (length (dec_rd dec)) (N.of_nat (dec_pos dec) + n) dec).

Definition codec : PrimitiveCodec := MkCodec encodeHeaders decodeHeaders.

End Wire.

(** The bytes a run of [EncodeTo] hands to a recording sink. *)
Definition written (r : option error * Trace) : list N := concat (writes r.2).

Definition emptyTrace : Trace := MkTrace [].

(** ** Concrete messages *)

(** Scenario A of the specification. *)
Definition scenarioA : Message :=
  {| Order := LittleEndian; Type_ := TypeMethodCall; Flags := 0; Serial := 1;
     Headers := <[FieldPath := MkVariant "o" (VObjectPath "/org/x")]>
                (<[FieldMember := MkVariant "s" (VString "Foo")]> ∅);
     Body := [] |}.

(** Scenario B: scenario A without [Member]. *)
Definition scenarioB : Message :=
  {| Order := LittleEndian; Type_ := TypeMethodCall; Flags := 0; Serial := 1;
     Headers := <[FieldPath := MkVariant "o" (VObjectPath "/org/x")]> ∅;
     Body := [] |}.

(** A method reply in big-endian order, without a body. *)
Definition replyBE : Message :=
  {| Order := BigEndian; Type_ := TypeMethodReply; Flags := 0; Serial := 1;
     Headers := <[FieldReplySerial := MkVariant "u" (VUint32 7)]> ∅;
     Body := [] |}.

(** A method reply in little-endian order with a body of four bytes. *)
Definition replyLE : Message :=
  {| Order := LittleEndian; Type_ := TypeMethodReply; Flags := 0; Serial := 1;
     Headers := <[FieldReplySerial := MkVariant "u" (VUint32 7)]>
                (<[FieldSignature := MkVariant "g" (VSignature "u")]> ∅);
     Body := [1; 2; 3; 4] |}.

(** [replyLE] without its [Signature] header. *)
Definition replyNoSignature : Message :=
  {| Order := LittleEndian; Type_ := TypeMethodReply; Flags := 0; Serial := 1;
     Headers := <[FieldReplySerial := MkVariant "u" (VUint32 7)]> ∅;
     Body := [1; 2; 3; 4] |}.

(** A method reply whose body has [2^32] bytes. *)
Definition replyHuge : Message :=
  {| Order := LittleEndian; Type_ := TypeMethodReply; Flags := 0; Serial := 1;
     Headers := <[FieldReplySerial := MkVariant "u" (VUint32 7)]>
                (<[FieldSignature := MkVariant "g" (VSignature "ay")]> ∅);
     Body := replicate (N.to_nat (2 ^ 32)) 0 |}.

(** [EncodeTo] into a recording sink, with the entries of a map visited
    in the order of [map_to_list]. *)
Definition encodeWire (m : Message) : list N :=
  written (EncodeTo Wire.codec map_to_list map_to_list m emptyTrace).

(** ** What the validator is to check *)

Definition orderKnown (m : Message) : Prop :=
  Order m = LittleEndian ∨ Order m = BigEndian.

Definition flagsKnown (m : Message) : Prop :=
  ∀ i, N.testbit (Flags m) i = true →
       N.testbit NoReplyExpected i = true ∨ N.testbit NoAutoStart i = true.

Definition typeKnown (m : Message) : Prop :=
  Type_ m ∈ [TypeMethodCall; TypeMethodReply; TypeError; TypeSignal].

(** An entry of the header map is in order when its key is a non-zero
    code of the registry and its value has the type the registry gives
    for the code. *)
Definition entryOk (kv : N * Variant) : Prop :=
  kv.1 ≠ 0 ∧ is_Some (fieldTypes !! kv.1) ∧ TypeOf (value kv.2) = fieldTypes !! kv.1.

Definition headersOk (m : Message) : Prop :=
  ∀ k v, Headers m !! k = Some v → entryOk (k, v).

Definition requiredPresent (m : Message) : Prop :=
  ∀ f, f ∈ default [] (requiredFields !! Type_ m) → is_Some (Headers m !! f).

Definition signaturePresent (m : Message) : Prop :=
  Body m ≠ [] → is_Some (Headers m !! FieldSignature).

(** The error of an entry that is not in order. *)
Definition entryError (kv : N * Variant) : error :=
  if bool_decide (kv.1 ≠ 0 ∧ is_Some (fieldTypes !! kv.1))
  then InvalidMessageError "invalid type of header field"
  else InvalidMessageError "invalid header".

(** [range] visits the entries of the map, each once. *)
Definition visits (range : gmap N Variant → list (N * Variant)) : Prop :=
  ∀ h, range h ≡ₚ map_to_list h.

(** The value of the body-length field in a sequence of written bytes. *)
Definition bodyLengthField (w : list N) : N :=
  getUint32 LittleEndian (take 4 (drop 4 w)).

(** The value of a [uint32] with its bytes in the opposite order. *)
Definition swap32 (v : N) : N := getUint32 BigEndian (putUint32 LittleEndian v).

(** The message with header [k] set to [v]. *)
Definition withHeader (k : N) (v : Variant) (m : Message) : Message :=
  MkMessage (Order m) (Type_ m) (Flags m) (Serial m) (<[k := v]> (Headers m)) (Body m).

(** The pairs of a message type and a header field it requires, as the
    specification lists them. *)
Definition requiredPairs : list (N * N) :=
  [ (TypeMethodCall, FieldPath); (TypeMethodCall, FieldMember);
    (TypeMethodReply, FieldReplySerial);
    (TypeError, FieldErrorName); (TypeError, FieldReplySerial);
    (TypeSignal, FieldPath); (TypeSignal, FieldInterface); (TypeSignal, FieldMember) ].

(** The message with its order set to [o]. *)
Definition withOrder (o : ByteOrder) (m : Message) : Message :=
  MkMessage o (Type_ m) (Flags m) (Serial m) (Headers m) (Body m).

(** A result of [DecodeMessage] returns the fields of [m]. *)
Definition roundTrips (m : Message) (r : (error + Message) * list N) : Prop :=
  match r.1 with
  | inr m' =>
      Type_ m' = Type_ m ∧ Flags m' = Flags m ∧ Serial m' = Serial m ∧
      Headers m' = Headers m ∧ Body m' = Body m
  | inl _ => False
  end.

(** The last entry of a header array with field code [k]. *)
Definition lastWithCode (k : N) (hs : list header) : option Variant :=
  HeaderVariant <$> last (filter (λ h, HeaderField h = k) hs).

(** The body read of [DecodeMessage]: [make([]byte, int(length))] and,
    when [length != 0], [rd.Read(message.Body)]. *)
Definition bodyRead (reader : Reader) (len : N) (rd : list N) :
    list N * option error * list N :=
  if negb (len =? 0) then Read reader (N.to_nat len) rd else ([], None, rd).

(** The first [Read] of [DecodeMessage], on a buffer of one byte with
    [avail] bytes still to come, delivers a byte and reports no
    error. *)
Definition deliversFirst (reader : Reader) (avail : nat) : Prop :=
  ∃ k, deliver reader 1 avail = (S k, None).

(** A [Read] on a buffer of [n] bytes with [avail] bytes still to come
    delivers [n] bytes and reports no error. *)
Definition fillsBuffer (reader : Reader) (n avail : nat) : Prop :=
  ∃ k, deliver reader n avail = (k, None) ∧ (n ≤ k)%nat.

(** The reader fills every buffer that is not empty and for which
    enough bytes are still to come, as [bytes.Reader] does. *)
Definition fills (reader : Reader) : Prop :=
  ∀ n avail, (0 < n ≤ avail)%nat → fillsBuffer reader n avail.

(** A method reply on the wire in big-endian order. *)
Definition bigEndianReply : list N :=
  [66; 2; 0; 1; 0; 0; 0; 0; 0; 0; 0; 1; 0; 0; 0; 8;
   5; 1; 117; 0; 0; 0; 0; 7].

(** The encoding of [replyLE] cut after the first byte of its body. *)
Definition truncatedReply : list N :=
  [108; 2; 0; 1; 4; 0; 0; 0; 1; 0; 0; 0; 16; 0; 0; 0;
   8; 1; 103; 0; 1; 117; 0; 0; 5; 1; 117; 0; 7; 0; 0; 0; 1].

(** A method reply on the wire whose header array holds [ReplySerial]
    twice, with the values 7 and 9. *)
Definition duplicateReply : list N :=
  [108; 2; 0; 1; 0; 0; 0; 0; 1; 0; 0; 0; 16; 0; 0; 0;
   5; 1; 117; 0; 7; 0; 0; 0; 5; 1; 117; 0; 9; 0; 0; 0].

(** The codec returns a header array written in little-endian order at
    offset 12 and leaves the decoder at the bytes that follow it. *)
Definition codecReturns (codec : PrimitiveCodec) (hs : list header) (tail : list N) : Prop :=
  decodeHeaders codec
    (MkDecoder (encodeHeaders codec LittleEndian 12 hs ++ tail) LittleEndian 12) =
  (inr hs,
   MkDecoder tail LittleEndian (12 + length (encodeHeaders codec LittleEndian 12 hs))).

(** A message with two headers that are not in order: [Path] with a
    string where the registry has an object path, and the unknown field
    code 12. *)
Definition mixedHeaders : Message :=
  {| Order := LittleEndian; Type_ := TypeMethodCall; Flags := 0; Serial := 1;
     Headers := <[FieldPath := MkVariant "s" (VString "/org/x")]>
                (<[12 := MkVariant "s" (VString "y")]> ∅);
     Body := [] |}.

(** The errors of [IsValid]. *)
Definition validationErrors : list error :=
  [ InvalidMessageError "invalid byte order";
    InvalidMessageError "invalid flags";
    InvalidMessageError "invalid message type";
    InvalidMessageError "invalid header";
    InvalidMessageError "invalid type of header field";
    InvalidMessageError "missing required header";
    InvalidMessageError "missing signature" ].

(** The two errors of the loop over the headers. *)
Definition headerErrors : list error :=
  [ InvalidMessageError "invalid header";
    InvalidMessageError "invalid type of header field" ].

(** A sink that is closed: every [Write] takes nothing and fails. *)
Record Closed : Type := MkClosed { attempts : nat }.

Global Instance Closed_Writer : Writer Closed :=
  λ p w, (0%nat, Some (TransportError "closed"), MkClosed (S (attempts w))).

(** ** The unit manager of [systemd.go]

    [StartAndEnableUnit] and its helpers talk to the service manager
    through the [Systemd] interface, to the file system through
    [os.Stat] and to the log.  The environment is a record of the
    answers to these calls, each a function of the calls made so far;
    the state of a run is the list of calls made so far. *)
Module Systemd.

(** An [error] that is not [nil]: a [db.Error] with its name, or any
    other error. *)
Inductive goerror : Set :=
| DbError (name : string)
| OtherError (msg : string).

(** A value of a property map, an [interface{}]: a string, a boolean, or
    a value of another type. *)
Inductive PropValue : Set :=
| PString (s : string)
| PBool (b : bool)
| POther (n : N).

(** The lines written with [log.Printf]. *)
Inductive LogLine : Set :=
| LogCheckError (unit : string) (err : goerror)
| LogNeedDaemonReload (v : option PropValue)
| LogReloading
| LogReloadFailed (err : goerror).

Inductive Call : Type :=
| CStartUnit (name mode : string)
| CStat (path : string)
| CEnableUnitFiles (files : list string) (runtime force : bool)
| CGetUnitProperties (unit : string)
| CReload
| CLog (line : LogLine).

Record Env : Type := MkEnv {
  startUnit : list Call → string → string → string * option goerror;
  stat : list Call → string → option goerror;
  enableUnitFiles : list Call → list string → bool → bool → option goerror;
  getUnitProperties : list Call → string → gmap string PropValue * option goerror;
  reload : list Call → option goerror
}.

(** A computation: a result, and the calls made when it returns. *)
Definition Sys (A : Type) : Type := list Call → A * list Call.

Definition SystemdError (err : option goerror) (name : string) : bool :=
  match err with
  | Some (DbError n) => String.eqb n name
  | _ => false
  end.

Definition ErrNoSuchUnit : goerror := DbError "org.freedesktop.systemd1.NoSuchUnit".

Definition IsNoSuchUnit (err : option goerror) : bool :=
  SystemdError err "org.freedesktop.systemd1.NoSuchUnit".

Definition IsLoadFailed (err : option goerror) : bool :=
  SystemdError err "org.freedesktop.systemd1.LoadFailed".

(** [p[key] == s] for a string [s]. *)
Definition propIsString (p : gmap string PropValue) (key s : string) : bool :=
  match p !! key with
  | Some (PString s') => String.eqb s' s
  | _ => false
  end.

(** [p[key] == true]. *)
Definition propIsTrue (p : gmap string PropValue) (key : string) : bool :=
  match p !! key with
  | Some (PBool true) => true
  | _ => false
  end.

Section Calls.

Variable env : Env.

Definition IsUnitProperty (unit : string) (f : gmap string PropValue → Sys bool) :
    Sys (bool * option goerror) :=
  λ t,
    let '(p, err) := getUnitProperties env t unit in
    let t := t ++ [CGetUnitProperties unit] in
    match err with
    | Some e => ((false, Some e), t ++ [CLog (LogCheckError unit e)])
    | None => let '(b, t) := f p t in ((b, None), t)
    end.

Definition IsUnitLoadState (unit state : string) : Sys (bool * option goerror) :=
  IsUnitProperty unit (λ p t, (propIsString p "LoadState" state, t)).

Definition StartAndEnableUnit (name path mode : string) : Sys (string * option goerror) :=
  λ t,
    let '(status, err) := startUnit env t name mode in
    let t := t ++ [CStartUnit name mode] in
    if IsNoSuchUnit err || IsLoadFailed err then
      let serr := stat env t path in
      let t := t ++ [CStat path] in
      match serr with
      | Some _ => (("", Some ErrNoSuchUnit), t)
      | None =>
          let eerr := enableUnitFiles env t [path] false true in
          let t := t ++ [CEnableUnitFiles [path] false true] in
          match eerr with
          | Some e => (("", Some e), t)
          | None =>
              let '((ok, perr), t) :=
                IsUnitProperty name
                  (λ p t,
                     (propIsString p "LoadState" "not-found" || propIsTrue p "NeedDaemonReload",
                      t ++ [CLog (LogNeedDaemonReload (p !! "NeedDaemonReload"))])) t in
              let t :=
                match perr with
                | None =>
                    if ok then
                      let t := t ++ [CLog LogReloading] in
                      let rerr := reload env t in
                      let t := t ++ [CReload] in
                      match rerr with
                      | Some e => t ++ [CLog (LogReloadFailed e)]
                      | None => t
                      end
                    else t
                | Some _ => t
                end in
              (startUnit env t name mode, t ++ [CStartUnit name mode])
          end
      end
    else ((status, err), t).

End Calls.

(** The calls of a run that are not lines of the log. *)
Definition isLog (c : Call) : bool :=
  match c with CLog _ => true | _ => false end.

Definition calls (t : list Call) : list Call := filter (λ c, isLog c = false) t.

(** An environment in which the unit file is on disk and not yet known
    to the manager: the first [StartUnit] fails with [NoSuchUnit], the
    properties ask for a reload, and the [StartUnit] after the reload
    succeeds. *)
Definition freshUnit : Env :=
  MkEnv (λ t _ _, if existsb (λ c, match c with CReload => true | _ => false end) t
                  then ("done", None)
                  else ("", Some ErrNoSuchUnit))
        (λ _ _, None)
        (λ _ _ _ _, None)
        (λ _ _, ({[ "NeedDaemonReload" := PBool true ]}, None))
        (λ _, None).

(** An environment in which the manager fails to load the unit and the
    unit file is not on disk. *)
Definition missingFile : Env :=
  MkEnv (λ _ _ _, ("", Some (DbError "org.freedesktop.systemd1.LoadFailed")))
        (λ _ _, Some (OtherError "no such file or directory"))
        (λ _ _ _ _, None)
        (λ _ _, (∅, None))
        (λ _, None).

End Systemd.

(** * Properties *)

(** ** Bits and bytes *)

Lemma testbit_byte_high (f i : N) : f < 256 → 8 ≤ i → N.testbit f i = false.
Proof.
  intros Hf Hi. destruct (N.eq_dec f 0) as [->|Hnz]; [apply N.bits_0|].
  apply N.bits_above_log2.
  assert (N.log2 f < 8); [|lia].
  apply N.log2_lt_pow2; [lia|]. simpl. lia.
Qed.

Lemma below_eight (i : N) :
  i < 8 → i = 0 ∨ i = 1 ∨ i = 2 ∨ i = 3 ∨ i = 4 ∨ i = 5 ∨ i = 6 ∨ i = 7.
Proof. lia. Qed.

Lemma flags_mask_spec (f : N) :
  f < 256 →
  N.land f (not8 (N.lor NoAutoStart NoReplyExpected)) = 0 ↔
  ∀ i, N.testbit f i = true →
       N.testbit NoReplyExpected i = true ∨ N.testbit NoAutoStart i = true.
Proof.
  intros Hf. change (not8 (N.lor NoAutoStart NoReplyExpected)) with 252.
  split.
  - intros H i Hi.
    destruct (N.lt_ge_cases i 8) as [Hlt|Hge].
    + assert (Hb : N.testbit (N.land f 252) i = false) by (rewrite H; apply N.bits_0).
      rewrite N.land_spec, Hi in Hb.
      destruct (below_eight i Hlt) as [->|[->|[->|[->|[->|[->|[->| ->]]]]]]];
        vm_compute in Hb |- *; auto; discriminate.
    + rewrite testbit_byte_high in Hi by assumption. discriminate.
  - intros H. apply N.bits_inj. intros i. rewrite N.land_spec, N.bits_0.
    destruct (N.testbit f i) eqn:Hi; [|reflexivity].
    destruct (N.lt_ge_cases i 8) as [Hlt|Hge].
    + destruct (H i Hi) as [Hb|Hb];
      destruct (below_eight i Hlt) as [->|[->|[->|[->|[->|[->|[->| ->]]]]]]];
        vm_compute in Hb |- *; auto; discriminate.
    + rewrite testbit_byte_high in Hi by assumption. discriminate.
Qed.

(** ** The registry *)

Lemma knownField_iff (k : N) : is_Some (fieldTypes !! k) ↔ k ≠ 0 ∧ k < fieldMax.
Proof.
  unfold fieldMax. split.
  - intros [t Ht]. destruct (N.lt_ge_cases k 10) as [Hlt|Hge].
    + split; [|assumption]. intros ->. vm_compute in Ht. discriminate.
    + exfalso. unfold fieldTypes in Ht. simpl in Ht.
      unfold FieldPath, FieldInterface, FieldMember, FieldErrorName, FieldReplySerial,
        FieldDestination, FieldSender, FieldSignature, FieldUnixFds in Ht.
      repeat (rewrite lookup_insert_ne in Ht by lia).
      rewrite lookup_empty in Ht. discriminate.
  - intros [Hnz Hlt].
    assert (k = 1 ∨ k = 2 ∨ k = 3 ∨ k = 4 ∨ k = 5 ∨ k = 6 ∨ k = 7 ∨ k = 8 ∨ k = 9) as
      [->|[->|[->|[->|[->|[->|[->|[->| ->]]]]]]]] by lia; vm_compute; eauto.
Qed.

Lemma typeKnown_iff (m : Message) :
  typeKnown m ↔ (Type_ m =? 0) || (typeMax <=? Type_ m) = false.
Proof.
  unfold typeKnown, typeMax, TypeMethodCall, TypeMethodReply, TypeError, TypeSignal.
  rewrite orb_false_iff, N.eqb_neq, N.leb_gt.
  rewrite !elem_of_cons, elem_of_nil. lia.
Qed.

Lemma requiredFields_known (t : N) :
  (t =? 0) || (typeMax <=? t) = false →
  requiredFields !! t =
    Some (if t =? TypeMethodCall then [FieldPath; FieldMember]
          else if t =? TypeMethodReply then [FieldReplySerial]
          else if t =? TypeError then [FieldErrorName; FieldReplySerial]
          else [FieldPath; FieldInterface; FieldMember]).
Proof.
  rewrite orb_false_iff, N.eqb_neq, N.leb_gt. unfold typeMax. intros [Hz Hlt].
  assert (t = 1 ∨ t = 2 ∨ t = 3 ∨ t = 4) as [->|[->|[->| ->]]] by lia;
    vm_compute; reflexivity.
Qed.

(** ** The loops of the validator *)

Lemma entryOk_dec (kv : N * Variant) :
  entryOk kv ↔
  (kv.1 =? 0) || (fieldMax <=? kv.1) = false ∧
  bool_decide (TypeOf (value kv.2) ≠ fieldTypes !! kv.1) = false.
Proof.
  unfold entryOk. rewrite knownField_iff.
  rewrite orb_false_iff, N.eqb_neq, N.leb_gt, bool_decide_eq_false.
  split.
  - intros (Hz & [_ Hlt] & Ht). repeat split; auto.
  - intros ([Hz Hlt] & Ht). repeat split; auto.
    destruct (decide (TypeOf (value kv.2) = fieldTypes !! kv.1)); [assumption|contradiction].
Qed.

Lemma entryError_dec (k : N) (v : Variant) :
  entryError (k, v) =
  if (k =? 0) || (fieldMax <=? k) then InvalidMessageError "invalid header"
  else InvalidMessageError "invalid type of header field".
Proof.
  unfold entryError. simpl.
  destruct ((k =? 0) || (fieldMax <=? k)) eqn:Hk.
  - rewrite bool_decide_eq_false_2; [reflexivity|].
    intros [Hz Hs]. apply knownField_iff in Hs.
    apply orb_true_iff in Hk as [Hk|Hk]; [apply N.eqb_eq in Hk|apply N.leb_le in Hk]; lia.
  - rewrite bool_decide_eq_true_2; [reflexivity|].
    apply orb_false_iff in Hk as [Hz Hlt]. apply N.eqb_neq in Hz. apply N.leb_gt in Hlt.
    split; [assumption|]. apply knownField_iff. auto.
Qed.

Lemma checkHeaders_None (hs : list (N * Variant)) :
  checkHeaders hs = None ↔ Forall entryOk hs.
Proof.
  induction hs as [|[k v] hs IH]; simpl.
  - split; auto.
  - rewrite Forall_cons, entryOk_dec. simpl.
    destruct ((k =? 0) || (fieldMax <=? k)); [split; [discriminate|intros [[? _] _]; discriminate]|].
    destruct (bool_decide (TypeOf (value v) ≠ fieldTypes !! k));
      [split; [discriminate|intros [[_ ?] _]; discriminate]|].
    rewrite IH. tauto.
Qed.

(** The error of the loop is the error of the first entry, in the order
    of the visit, that is not in order. *)
Lemma checkHeaders_Some (hs : list (N * Variant)) (e : error) :
  checkHeaders hs = Some e ↔
  ∃ pre kv post, hs = pre ++ kv :: post ∧ Forall entryOk pre ∧ ¬ entryOk kv ∧
                 e = entryError kv.
Proof.
  revert e. induction hs as [|[k v] hs IH]; intros e; simpl.
  - split; [discriminate|]. intros (pre & kv & post & H & _). destruct pre; discriminate.
  - pose proof (entryOk_dec (k, v)) as Hok. pose proof (entryError_dec k v) as Herr.
    simpl in Hok.
    destruct ((k =? 0) || (fieldMax <=? k)) eqn:Hk.
    + split.
      * intros [= <-]. exists [], (k, v), hs. repeat split; auto.
        rewrite Hok. intros [? _]. discriminate.
      * intros (pre & kv & post & Heq & Hpre & Hbad & ->).
        destruct pre as [|p pre]; simpl in Heq; injection Heq as <- ?.
        -- rewrite Herr. reflexivity.
        -- apply Forall_cons in Hpre as [Hp _]. apply Hok in Hp as [? _]. discriminate.
    + destruct (bool_decide (TypeOf (value v) ≠ fieldTypes !! k)) eqn:Ht.
      * split.
        -- intros [= <-]. exists [], (k, v), hs. repeat split; auto.
           rewrite Hok. intros [_ ?]. discriminate.
        -- intros (pre & kv & post & Heq & Hpre & Hbad & ->).
           destruct pre as [|p pre]; simpl in Heq; injection Heq as <- ?.
           ++ rewrite Herr. reflexivity.
           ++ apply Forall_cons in Hpre as [Hp _]. apply Hok in Hp as [_ ?]. discriminate.
      * rewrite IH. split.
        -- intros (pre & kv & post & -> & Hpre & Hbad & ->).
           exists ((k, v) :: pre), kv, post. repeat split; auto.
           apply Forall_cons. split; [apply Hok; auto|assumption].
        -- intros (pre & kv & post & Heq & Hpre & Hbad & ->).
           destruct pre as [|p pre]; simpl in Heq; injection Heq as <- ?.
           ++ exfalso. apply Hbad, Hok. auto.
           ++ subst hs. apply Forall_cons in Hpre as [_ Hpre].
              exists pre, kv, post. repeat split; auto.
Qed.

Lemma checkRequired_None (req : list N) (h : gmap N Variant) :
  checkRequired req h = None ↔ ∀ f, f ∈ req → is_Some (h !! f).
Proof.
  induction req as [|f req IH]; simpl.
  - split; [intros _ f Hf; inversion Hf|auto].
  - destruct (h !! f) eqn:Hf.
    + rewrite IH. split.
      * intros H g Hg. apply elem_of_cons in Hg as [->|Hg]; [rewrite Hf; eauto|auto].
      * intros H g Hg. apply H. apply elem_of_cons. auto.
    + split; [discriminate|]. intros H.
      destruct (H f) as [x Hx]; [apply elem_of_cons; auto|]. congruence.
Qed.

Lemma checkRequired_Some (req : list N) (h : gmap N Variant) (e : error) :
  checkRequired req h = Some e → e = InvalidMessageError "missing required header".
Proof.
  induction req as [|f req IH]; simpl; [discriminate|].
  destruct (h !! f); [assumption|]. intros [= <-]. reflexivity.
Qed.

Lemma checkRequired_missing (req : list N) (h : gmap N Variant) :
  ¬ (∀ f, f ∈ req → is_Some (h !! f)) →
  checkRequired req h = Some (InvalidMessageError "missing required header").
Proof.
  intros H. destruct (checkRequired req h) as [e|] eqn:He.
  - f_equal. eapply checkRequired_Some, He.
  - exfalso. apply H. apply checkRequired_None, He.
Qed.

Lemma headersOk_visit (range : gmap N Variant → list (N * Variant)) (m : Message) :
  visits range → Forall entryOk (range (Headers m)) ↔ headersOk m.
Proof.
  intros Hv. rewrite (Hv (Headers m)). rewrite Forall_forall. unfold headersOk.
  split.
  - intros H k v Hkv. apply H. apply elem_of_map_to_list. assumption.
  - intros H [k v] Hkv. apply H. apply elem_of_map_to_list. assumption.
Qed.

Lemma body_empty_dec (m : Message) :
  negb (length (Body m) =? 0)%nat = true ↔ Body m ≠ [].
Proof.
  rewrite negb_true_iff, Nat.eqb_neq. destruct (Body m); simpl; split; congruence.
Qed.

(** ** The validator *)

Section ValidatorProperties.

Variable range : gmap N Variant → list (N * Variant).
Hypothesis range_visits : visits range.

Lemma IsValid_order (m : Message) :
  ¬ orderKnown m → IsValid range m = Some (InvalidMessageError "invalid byte order").
Proof.
  unfold orderKnown, IsValid. destruct (Order m); intros H; try reflexivity;
    exfalso; apply H; auto.
Qed.

Lemma IsValid_flags (m : Message) :
  Flags m < 256 → orderKnown m → ¬ flagsKnown m →
  IsValid range m = Some (InvalidMessageError "invalid flags").
Proof.
  intros Hb Ho Hf. unfold flagsKnown in Hf. rewrite <- flags_mask_spec in Hf by assumption.
  apply N.eqb_neq in Hf. unfold IsValid. rewrite Hf. simpl.
  destruct Ho as [-> | ->]; reflexivity.
Qed.

(** The validator past the checks of order and flags. *)
Lemma IsValid_past_flags (m : Message) :
  Flags m < 256 → orderKnown m → flagsKnown m →
  IsValid range m =
    if (Type_ m =? 0) || (typeMax <=? Type_ m) then
      Some (InvalidMessageError "invalid message type")
    else
      match checkHeaders (range (Headers m)) with
      | Some e => Some e
      | None =>
          match checkRequired (default [] (requiredFields !! Type_ m)) (Headers m) with
          | Some e => Some e
          | None =>
              if negb (length (Body m) =? 0)%nat then
                match Headers m !! FieldSignature with
                | None => Some (InvalidMessageError "missing signature")
                | Some _ => None
                end
              else None
          end
      end.
Proof.
  intros Hb Ho Hf. unfold flagsKnown in Hf. rewrite <- flags_mask_spec in Hf by assumption.
  apply N.eqb_eq in Hf. unfold IsValid. rewrite Hf. simpl.
  destruct Ho as [-> | ->]; reflexivity.
Qed.

Lemma IsValid_type (m : Message) :
  Flags m < 256 → orderKnown m → flagsKnown m → ¬ typeKnown m →
  IsValid range m = Some (InvalidMessageError "invalid message type").
Proof.
  intros Hb Ho Hf Ht. rewrite IsValid_past_flags by assumption.
  rewrite typeKnown_iff in Ht. apply not_false_is_true in Ht. rewrite Ht. reflexivity.
Qed.

Lemma IsValid_headers (m : Message) :
  Flags m < 256 → orderKnown m → flagsKnown m → typeKnown m → ¬ headersOk m →
  ∃ pre kv post,
    range (Headers m) = pre ++ kv :: post ∧ Forall entryOk pre ∧ ¬ entryOk kv ∧
    IsValid range m = Some (entryError kv).
Proof.
  intros Hb Ho Hf Ht Hh. rewrite IsValid_past_flags by assumption.
  apply typeKnown_iff in Ht. rewrite Ht.
  rewrite <- (headersOk_visit range m range_visits), <- checkHeaders_None in Hh.
  destruct (checkHeaders (range (Headers m))) as [e|] eqn:He; [|contradiction].
  apply checkHeaders_Some in He as (pre & kv & post & Heq & Hpre & Hbad & ->).
  exists pre, kv, post. auto.
Qed.

Lemma IsValid_required (m : Message) :
  Flags m < 256 → orderKnown m → flagsKnown m → typeKnown m → headersOk m →
  ¬ requiredPresent m →
  IsValid range m = Some (InvalidMessageError "missing required header").
Proof.
  intros Hb Ho Hf Ht Hh Hr. rewrite IsValid_past_flags by assumption.
  apply typeKnown_iff in Ht. rewrite Ht.
  rewrite <- (headersOk_visit range m range_visits), <- checkHeaders_None in Hh.
  rewrite Hh. rewrite checkRequired_missing by exact Hr. reflexivity.
Qed.

Lemma IsValid_signature (m : Message) :
  Flags m < 256 → orderKnown m → flagsKnown m → typeKnown m → headersOk m →
  requiredPresent m → ¬ signaturePresent m →
  IsValid range m = Some (InvalidMessageError "missing signature").
Proof.
  intros Hb Ho Hf Ht Hh Hr Hs. rewrite IsValid_past_flags by assumption.
  apply typeKnown_iff in Ht. rewrite Ht.
  rewrite <- (headersOk_visit range m range_visits), <- checkHeaders_None in Hh.
  rewrite Hh. apply checkRequired_None in Hr. rewrite Hr.
  unfold signaturePresent in Hs.
  destruct (negb (length (Body m) =? 0)%nat) eqn:Hbody.
  - destruct (Headers m !! FieldSignature) eqn:Hsig; [|reflexivity].
    exfalso. apply Hs. eauto.
  - exfalso. apply Hs. intros Hne. apply body_empty_dec in Hne. congruence.
Qed.

Lemma IsValid_None (m : Message) :
  Flags m < 256 →
  IsValid range m = None ↔
  orderKnown m ∧ flagsKnown m ∧ typeKnown m ∧ headersOk m ∧ requiredPresent m ∧
  signaturePresent m.
Proof.
  intros Hb. split.
  - intros H.
    assert (Hok : orderKnown m).
    { unfold orderKnown. unfold IsValid in H. destruct (Order m); auto; discriminate. }
    assert (Hfk : flagsKnown m).
    { unfold flagsKnown. apply (flags_mask_spec (Flags m) Hb). apply N.eqb_eq.
      unfold IsValid in H.
      destruct (N.land (Flags m) (not8 (N.lor NoAutoStart NoReplyExpected)) =? 0);
        [reflexivity|]. simpl in H. destruct (Order m); discriminate. }
    rewrite IsValid_past_flags in H by assumption.
    destruct ((Type_ m =? 0) || (typeMax <=? Type_ m)) eqn:Ht; [discriminate|].
    destruct (checkHeaders (range (Headers m))) eqn:Hh; [discriminate|].
    destruct (checkRequired _ _) eqn:Hr; [discriminate|].
    split; [assumption|]. split; [assumption|].
    split; [apply typeKnown_iff, Ht|].
    split; [apply (headersOk_visit range m range_visits), checkHeaders_None, Hh|].
    split; [exact (proj1 (checkRequired_None _ _) Hr)|].
    intros Hne. apply body_empty_dec in Hne. rewrite Hne in H.
    destruct (Headers m !! FieldSignature); [eauto|discriminate].
  - intros (Ho & Hf & Ht & Hh & Hr & Hs).
    rewrite IsValid_past_flags by assumption.
    apply typeKnown_iff in Ht. rewrite Ht.
    rewrite <- (headersOk_visit range m range_visits), <- checkHeaders_None in Hh.
    rewrite Hh. apply checkRequired_None in Hr. rewrite Hr.
    destruct (negb (length (Body m) =? 0)%nat) eqn:Hbody; [|reflexivity].
    apply body_empty_dec in Hbody. destruct (Hs Hbody) as [x ->]. reflexivity.
Qed.

End ValidatorProperties.

(** C3.  For a message whose flags are a byte and a [range] that visits
    the entries of the header map, [IsValid] succeeds exactly when the
    order is little- or big-endian, the flags have no bit outside
    [NoReplyExpected] and [NoAutoStart], the type is one of the four
    known ones, every header is a known non-zero code with a value of the
    registry's type, the required fields of the type are present, and a
    non-empty body comes with a [Signature] header.  Otherwise the error
    is that of the first of these checks to fail, in this order; for the
    headers it is the error of the first entry visited that is not in
    order.  [IsValid] is a function of the message to an error: it
    returns nothing else and changes nothing. *)
Theorem IsValid_first_failure (range : gmap N Variant → list (N * Variant)) (m : Message) :
  visits range → Flags m < 256 →
  (IsValid range m = None ↔
     orderKnown m ∧ flagsKnown m ∧ typeKnown m ∧ headersOk m ∧ requiredPresent m ∧
     signaturePresent m) ∧
  (¬ orderKnown m →
     IsValid range m = Some (InvalidMessageError "invalid byte order")) ∧
  (orderKnown m → ¬ flagsKnown m →
     IsValid range m = Some (InvalidMessageError "invalid flags")) ∧
  (orderKnown m → flagsKnown m → ¬ typeKnown m →
     IsValid range m = Some (InvalidMessageError "invalid message type")) ∧
  (orderKnown m → flagsKnown m → typeKnown m → ¬ headersOk m →
     ∃ pre kv post,
       range (Headers m) = pre ++ kv :: post ∧ Forall entryOk pre ∧ ¬ entryOk kv ∧
       IsValid range m = Some (entryError kv)) ∧
  (orderKnown m → flagsKnown m → typeKnown m → headersOk m → ¬ requiredPresent m →
     IsValid range m = Some (InvalidMessageError "missing required header")) ∧
  (orderKnown m → flagsKnown m → typeKnown m → headersOk m → requiredPresent m →
   ¬ signaturePresent m →
     IsValid range m = Some (InvalidMessageError "missing signature")).
Proof.
  intros Hv Hb.
  split; [apply IsValid_None; assumption|].
  split; [apply IsValid_order|].
  split; [apply IsValid_flags; assumption|].
  split; [apply IsValid_type; assumption|].
  split; [apply IsValid_headers; assumption|].
  split; [apply IsValid_required; assumption|].
  apply IsValid_signature; assumption.
Qed.

(** A witness for [IsValid_first_failure]: scenario A of the
    specification, with the entries visited in the order of
    [map_to_list]. *)
Lemma IsValid_first_failure_witness :
  visits map_to_list ∧ Flags scenarioA < 256 ∧
  (IsValid map_to_list scenarioA = None ↔
     orderKnown scenarioA ∧ flagsKnown scenarioA ∧ typeKnown scenarioA ∧
     headersOk scenarioA ∧ requiredPresent scenarioA ∧ signaturePresent scenarioA).
Proof.
  assert (Hv : visits map_to_list) by (intros h; reflexivity).
  assert (Hb : Flags scenarioA < 256) by (vm_compute; reflexivity).
  split; [exact Hv|]. split; [exact Hb|].
  exact (proj1 (IsValid_first_failure map_to_list scenarioA Hv Hb)).
Defined.

(** C5.  A message that passes the checks of order, flags and headers
    and lacks a header field its type requires (a method call [Path] or
    [Member], a method reply [ReplySerial], an error [ErrorName] or
    [ReplySerial], a signal [Path], [Interface] or [Member]) fails
    validation with the error of a missing required header. *)
Theorem missing_required_header
    (range : gmap N Variant → list (N * Variant)) (m : Message) (f : N) :
  visits range → Flags m < 256 →
  orderKnown m → flagsKnown m → headersOk m →
  (Type_ m, f) ∈ requiredPairs →
  Headers m !! f = None →
  IsValid range m = Some (InvalidMessageError "missing required header").
Proof.
  intros Hv Hb Ho Hf Hh Hp Hnone.
  assert (Ht : typeKnown m ∧ f ∈ default [] (requiredFields !! Type_ m)).
  { unfold typeKnown, requiredPairs in *.
    repeat (apply elem_of_cons in Hp as [Hp|Hp];
            [injection Hp as -> ->; split; [set_solver|vm_compute; set_solver]|]).
    inversion Hp. }
  destruct Ht as [Ht Hreq].
  apply IsValid_required; try assumption.
  intros Hr. destruct (Hr f Hreq) as [x Hx]. congruence.
Qed.

(** A witness for [missing_required_header]: scenario B of the
    specification, a method call without [Member]. *)
Lemma missing_required_header_witness :
  IsValid map_to_list scenarioB = Some (InvalidMessageError "missing required header").
Proof.
  apply (missing_required_header map_to_list scenarioB FieldMember).
  - intros h. reflexivity.
  - vm_compute. reflexivity.
  - left. reflexivity.
  - intros i Hi. vm_compute in Hi. discriminate.
  - intros k v Hkv. unfold scenarioB in Hkv. simpl in Hkv.
    apply lookup_insert_Some in Hkv as [[<- <-]|[_ Hkv]];
      [|rewrite lookup_empty in Hkv; discriminate].
    vm_compute. split; [discriminate|]. split; [eauto|reflexivity].
  - unfold requiredPairs. set_solver.
  - vm_compute. reflexivity.
Defined.

(** ** The signature of a body *)

Lemma withHeader_headersOk (k : N) (v : Variant) (m : Message) :
  entryOk (k, v) → headersOk m → headersOk (withHeader k v m).
Proof.
  intros Hkv Hm k' v' Hl. unfold withHeader in Hl. simpl in Hl.
  apply lookup_insert_Some in Hl as [[<- <-]|[_ Hl]]; [assumption|].
  apply Hm. assumption.
Qed.

Lemma withHeader_requiredPresent (k : N) (v : Variant) (m : Message) :
  requiredPresent m → requiredPresent (withHeader k v m).
Proof.
  intros Hm f Hf. unfold withHeader. simpl.
  destruct (decide (k = f)) as [->|Hne].
  - rewrite lookup_insert_eq. eauto.
  - rewrite lookup_insert_ne by assumption. apply Hm. assumption.
Qed.

(** C6.  A message that meets every other requirement and has no
    [Signature] header fails validation with the error of a missing
    signature when its body is not empty, and passes when its body is
    empty; with a [Signature] header of the registry's type added it
    passes, whatever its body. *)
Theorem signature_requirement
    (range : gmap N Variant → list (N * Variant)) (m : Message) :
  visits range → Flags m < 256 →
  orderKnown m → flagsKnown m → typeKnown m → headersOk m → requiredPresent m →
  Headers m !! FieldSignature = None →
  (Body m ≠ [] → IsValid range m = Some (InvalidMessageError "missing signature")) ∧
  (∀ v, TypeOf (value v) = Some signatureType →
        IsValid range (withHeader FieldSignature v m) = None) ∧
  (Body m = [] → IsValid range m = None).
Proof.
  intros Hv Hb Ho Hf Ht Hh Hr Hnone. split; [|split].
  - intros Hbody. apply IsValid_signature; try assumption.
    intros Hs. destruct (Hs Hbody) as [x Hx]. congruence.
  - intros v Hty. apply IsValid_None; [assumption|exact Hb|].
    split; [exact Ho|]. split; [exact Hf|]. split; [exact Ht|].
    split; [|split].
    + apply withHeader_headersOk; [|assumption].
      split; [discriminate|]. split; [vm_compute; eauto|]. simpl. rewrite Hty. reflexivity.
    + apply withHeader_requiredPresent. assumption.
    + intros _. unfold withHeader. simpl. rewrite lookup_insert_eq. eauto.
  - intros Hbody. apply IsValid_None; [assumption|exact Hb|].
    split; [exact Ho|]. split; [exact Hf|]. split; [exact Ht|].
    split; [exact Hh|]. split; [exact Hr|].
    intros Hne. contradiction.
Qed.

(** A witness for [signature_requirement]: a method reply with a body of
    four bytes and no [Signature] header. *)
Lemma signature_requirement_witness :
  Body replyNoSignature ≠ [] ∧
  IsValid map_to_list replyNoSignature = Some (InvalidMessageError "missing signature") ∧
  IsValid map_to_list
    (withHeader FieldSignature (MkVariant "g" (VSignature "u")) replyNoSignature) = None.
Proof.
  assert (H : orderKnown replyNoSignature ∧ flagsKnown replyNoSignature ∧
              typeKnown replyNoSignature ∧ headersOk replyNoSignature ∧
              requiredPresent replyNoSignature).
  { split; [left; reflexivity|].
    split; [intros i Hi; vm_compute in Hi; discriminate|].
    split; [unfold typeKnown; set_solver|].
    split.
    - intros k v Hkv. unfold replyNoSignature in Hkv. simpl in Hkv.
      apply lookup_insert_Some in Hkv as [[<- <-]|[_ Hkv]];
        [|rewrite lookup_empty in Hkv; discriminate].
      vm_compute. split; [discriminate|]. split; [eauto|reflexivity].
    - intros f Hf. vm_compute in Hf.
      apply elem_of_cons in Hf as [->|Hf]; [vm_compute; eauto|inversion Hf]. }
  destruct H as (Ho & Hf & Ht & Hh & Hr).
  destruct (signature_requirement map_to_list replyNoSignature) as (H1 & H2 & _);
    try assumption.
  - intros h. reflexivity.
  - vm_compute. reflexivity.
  - vm_compute. reflexivity.
  - split; [discriminate|]. split; [apply H1; discriminate|].
    apply H2. reflexivity.
Defined.

(** ** Fixed-width scalars *)

Lemma testbit_byte_shift (v k i : N) :
  N.testbit (N.shiftl (N.land (N.shiftr v k) 255) k) i =
  N.testbit v i && (k <=? i) && (i <? k + 8).
Proof.
  destruct (N.leb_spec k i) as [Hle|Hlt].
  - rewrite N.shiftl_spec_high' by assumption.
    rewrite N.land_spec, N.shiftr_spec', N.sub_add by assumption.
    change 255 with (N.ones 8).
    destruct (N.ltb_spec i (k + 8)).
    + rewrite N.ones_spec_low by lia. rewrite !andb_true_r. reflexivity.
    + rewrite N.ones_spec_high by lia. rewrite !andb_false_r. reflexivity.
  - rewrite N.shiftl_spec_low by assumption. rewrite andb_false_r. reflexivity.
Qed.

Lemma getUint32_putUint32 (order : ByteOrder) (v : N) :
  order ≠ OtherOrder → getUint32 order (putUint32 order v) = v mod 2 ^ 32.
Proof.
  intros Ho.
  assert (H : N.lor (N.land v 255)
                (N.lor (N.shiftl (N.land (N.shiftr v 8) 255) 8)
                   (N.lor (N.shiftl (N.land (N.shiftr v 16) 255) 16)
                      (N.shiftl (N.land (N.shiftr v 24) 255) 24))) = v mod 2 ^ 32).
  { apply N.bits_inj. intros i.
    replace (N.land v 255) with (N.shiftl (N.land (N.shiftr v 0) 255) 0)
      by (rewrite N.shiftl_0_r, N.shiftr_0_r; reflexivity).
    rewrite !N.lor_spec, !testbit_byte_shift.
    destruct (N.ltb_spec i 32) as [Hlt|Hge].
    - rewrite N.mod_pow2_bits_low by assumption.
      destruct (N.testbit v i); [|reflexivity]. simpl.
      destruct (N.leb_spec 0 i), (N.leb_spec 8 i), (N.leb_spec 16 i), (N.leb_spec 24 i),
        (N.ltb_spec i (0 + 8)), (N.ltb_spec i (8 + 8)), (N.ltb_spec i (16 + 8)),
        (N.ltb_spec i (24 + 8)); simpl; try reflexivity; lia.
    - rewrite N.mod_pow2_bits_high by assumption.
      destruct (N.ltb_spec i (0 + 8)), (N.ltb_spec i (8 + 8)), (N.ltb_spec i (16 + 8)),
        (N.ltb_spec i (24 + 8)); lia. }
  destruct order; [exact H| |contradiction].
  unfold putUint32, getUint32. exact H.
Qed.

Lemma putUint32_length (order : ByteOrder) (v : N) :
  order ≠ OtherOrder → length (putUint32 order v) = 4%nat.
Proof. destruct order; [reflexivity|reflexivity|contradiction]. Qed.

(** ** The bytes of a message *)

Lemma encodeByte_mk (b : N) (out : list N) (order : ByteOrder) (pos : nat) :
  encodeByte b (MkEncoder out order pos) = MkEncoder (out ++ [b]) order (pos + 1).
Proof. reflexivity. Qed.

(** At a multiple of four a [uint32] takes no padding. *)
Lemma encodeUint32_mk (v : N) (out : list N) (order : ByteOrder) (pos : nat) :
  padding pos 4 = 0%nat →
  encodeUint32 v (MkEncoder out order pos) =
  MkEncoder (out ++ putUint32 order v) order (pos + 4).
Proof.
  intros Hp. unfold encodeUint32, enc_align. cbn [enc_out enc_order enc_pos].
  rewrite Hp. cbn [replicate]. rewrite app_nil_r, Nat.add_0_r. reflexivity.
Qed.

Lemma encodeHeaderArray_mk (codec : PrimitiveCodec) (hs : list header)
    (out : list N) (order : ByteOrder) (pos : nat) :
  encodeHeaderArray codec hs (MkEncoder out order pos) =
  MkEncoder (out ++ encodeHeaders codec order pos hs) order
            (pos + length (encodeHeaders codec order pos hs)).
Proof. reflexivity. Qed.

Section EncodeProperties.

Variable codec : PrimitiveCodec.
Variable rangeV : gmap N Variant → list (N * Variant).
Variable rangeE : gmap N Variant → list (N * Variant).

(** The layout of the bytes that [EncodeTo] assembles: the marker, the
    type, the flags, the protocol version, the length of the body and
    the serial in little-endian order, the header array as the codec
    writes it in little-endian order at offset 12, the padding to a
    multiple of eight, and the body. *)
Lemma assemble_layout (marker : N) (m : Message) :
  assemble codec rangeE marker m =
    [marker; Type_ m; Flags m; protoVersion]
      ++ putUint32 LittleEndian (N.of_nat (length (Body m)) mod 2 ^ 32)
      ++ putUint32 LittleEndian (Serial m)
      ++ encodeHeaders codec LittleEndian 12 (flattenHeaders (rangeE (Headers m)))
      ++ replicate
           (padding (12 + length (encodeHeaders codec LittleEndian 12
                                    (flattenHeaders (rangeE (Headers m))))) 8) 0
      ++ Body m.
Proof.
  cbv beta zeta delta [assemble EncodeMulti NewEncoder].
  rewrite !encodeByte_mk.
  rewrite !encodeUint32_mk by reflexivity.
  rewrite encodeHeaderArray_mk.
  unfold enc_align. cbn [enc_out enc_order enc_pos].
  change (0 + 1 + 1 + 1 + 1 + 4 + 4)%nat with 12%nat.
  cbn [app]. rewrite <- !app_assoc. cbn [app].
  destruct (Body m) eqn:Hb; cbn [length Nat.eqb negb];
    rewrite <- ?app_assoc, ?app_nil_r; reflexivity.
Qed.

End EncodeProperties.

(** ** Writing a message *)

Lemma padding_aligned (pos : nat) : ((pos + padding pos 8) mod 8 = 0)%nat.
Proof.
  unfold padding.
  pose proof (Nat.div_mod_eq pos 8) as Hd.
  pose proof (Nat.mod_upper_bound pos 8 ltac:(lia)) as Hr.
  set (r := (pos mod 8)%nat) in *. set (q := (pos / 8)%nat) in *.
  assert (Hc : (r = 0 ∨ r = 1 ∨ r = 2 ∨ r = 3 ∨ r = 4 ∨ r = 5 ∨ r = 6 ∨ r = 7)%nat) by lia.
  rewrite Hd.
  destruct Hc as [->|[->|[->|[->|[->|[->|[->| ->]]]]]]]; cbn [Nat.sub];
    match goal with |- ((8 * q + ?a + ?b) mod 8)%nat = _ =>
      let c := eval vm_compute in ((a + b) / 8)%nat in
      replace (8 * q + a + b)%nat with (0 + (q + c) * 8)%nat by (vm_compute (b); lia) end;
    rewrite Nat.Div0.mod_add; reflexivity.
Qed.

Section WriteProperties.

Variable codec : PrimitiveCodec.
Variable rangeV : gmap N Variant → list (N * Variant).
Variable rangeE : gmap N Variant → list (N * Variant).

Lemma IsValid_marker (m : Message) :
  IsValid rangeV m = None → ∃ marker, markerOfOrder (Order m) = Some marker.
Proof.
  unfold IsValid. destruct (Order m); simpl; eauto. discriminate.
Qed.

Lemma assemble_nonempty (marker : N) (m : Message) :
  (0 <? length (assemble codec rangeE marker m))%nat = true.
Proof. rewrite assemble_layout. reflexivity. Qed.

(** On a valid message the sink is left as one [Write] of the
    assembled bytes leaves it. *)
Lemma EncodeTo_valid {W} `{Writer W} (m : Message) (out : W) :
  IsValid rangeV m = None →
  ∃ marker, markerOfOrder (Order m) = Some marker ∧
    (EncodeTo codec rangeV rangeE m out).2 =
    (Write (assemble codec rangeE marker m) out).2.
Proof.
  intros Hv. destruct (IsValid_marker m Hv) as [marker Hm].
  exists marker. split; [assumption|].
  unfold EncodeTo. rewrite Hv, Hm. unfold WriteTo. rewrite assemble_nonempty.
  destruct (Write (assemble codec rangeE marker m) out) as [[n e] out'].
  destruct (length (assemble codec rangeE marker m) <? n)%nat; [reflexivity|].
  destruct e; [reflexivity|].
  destruct (negb (n =? length (assemble codec rangeE marker m))%nat); reflexivity.
Qed.

(** Into a recording sink. *)
Lemma EncodeTo_trace (m : Message) (tr : Trace) :
  IsValid rangeV m = None →
  ∃ marker, markerOfOrder (Order m) = Some marker ∧
    EncodeTo codec rangeV rangeE m tr =
    (None, MkTrace (writes tr ++ [assemble codec rangeE marker m])).
Proof.
  intros Hv. destruct (IsValid_marker m Hv) as [marker Hm].
  exists marker. split; [assumption|].
  unfold EncodeTo. rewrite Hv, Hm. unfold WriteTo. rewrite assemble_nonempty.
  unfold Write, Trace_Writer. rewrite Nat.ltb_irrefl, Nat.eqb_refl. reflexivity.
Qed.

Lemma written_valid (m : Message) :
  IsValid rangeV m = None →
  ∃ marker, markerOfOrder (Order m) = Some marker ∧
    written (EncodeTo codec rangeV rangeE m emptyTrace) = assemble codec rangeE marker m.
Proof.
  intros Hv. destruct (EncodeTo_trace m emptyTrace Hv) as (marker & Hm & He).
  exists marker. split; [assumption|].
  rewrite He. unfold written. simpl. apply app_nil_r.
Qed.

End WriteProperties.

(** C7.  On a message that fails validation [EncodeTo] returns the error
    of the validator and leaves the sink as it was: no [Write] reaches
    it.  On a message that passes, the sink is left as exactly one
    [Write] of the fully assembled bytes leaves it; a sink that records
    its writes holds one more entry, the assembled bytes, and none after
    a failed validation. *)
Theorem EncodeTo_no_partial_write
    (codec : PrimitiveCodec) (rangeV rangeE : gmap N Variant → list (N * Variant))
    (m : Message) :
  (∀ W (HW : Writer W) (out : W) err,
      IsValid rangeV m = Some err →
      EncodeTo codec rangeV rangeE m out = (Some err, out)) ∧
  (∀ W (HW : Writer W) (out : W),
      IsValid rangeV m = None →
      ∃ marker, markerOfOrder (Order m) = Some marker ∧
        (EncodeTo codec rangeV rangeE m out).2 =
        (Write (assemble codec rangeE marker m) out).2) ∧
  (∀ (tr : Trace) err,
      IsValid rangeV m = Some err →
      writes (EncodeTo codec rangeV rangeE m tr).2 = writes tr) ∧
  (∀ tr : Trace,
      IsValid rangeV m = None →
      ∃ marker, markerOfOrder (Order m) = Some marker ∧
        writes (EncodeTo codec rangeV rangeE m tr).2 =
        writes tr ++ [assemble codec rangeE marker m]).
Proof.
  split; [|split; [|split]].
  - intros W HW out err Hv. unfold EncodeTo. rewrite Hv. reflexivity.
  - intros W HW out Hv. apply EncodeTo_valid. assumption.
  - intros tr err Hv. unfold EncodeTo. rewrite Hv. reflexivity.
  - intros tr Hv. destruct (EncodeTo_trace codec rangeV rangeE m tr Hv) as (marker & Hm & He).
    exists marker. split; [assumption|]. rewrite He. reflexivity.
Qed.

(** [EncodeTo_no_partial_write] on scenario B, which fails validation,
    and on scenario A, which passes. *)
Lemma EncodeTo_no_partial_write_witness :
  writes (EncodeTo Wire.codec map_to_list map_to_list scenarioB emptyTrace).2 = [] ∧
  ∃ marker,
    markerOfOrder (Order scenarioA) = Some marker ∧
    writes (EncodeTo Wire.codec map_to_list map_to_list scenarioA emptyTrace).2 =
    [assemble Wire.codec map_to_list marker scenarioA].
Proof.
  split.
  - apply (proj1 (proj2 (proj2
      (EncodeTo_no_partial_write Wire.codec map_to_list map_to_list scenarioB)))
      emptyTrace (InvalidMessageError "missing required header")).
    vm_compute. reflexivity.
  - apply (proj2 (proj2 (proj2
      (EncodeTo_no_partial_write Wire.codec map_to_list map_to_list scenarioA)))
      emptyTrace).
    vm_compute. reflexivity.
Defined.

(** ** Reading a message *)

Lemma Read_length (reader : Reader) (n : nat) (rd : list N) :
  length (Read reader n rd).1.1 = n.
Proof.
  unfold Read. destruct (deliver reader n (length rd)) as [k e]. cbn [fst].
  rewrite length_app, length_take, length_replicate. lia.
Qed.

(** What a [Read] that delivers [k] bytes leaves in the buffer and on
    the stream. *)
Lemma Read_delivered (reader : Reader) (n k : nat) (e : option error) (rd : list N) :
  deliver reader n (length rd) = (k, e) →
  Read reader n rd =
    (take (Nat.min k (Nat.min n (length rd))) rd
       ++ replicate (n - Nat.min k (Nat.min n (length rd))) 0,
     e, drop (Nat.min k (Nat.min n (length rd))) rd).
Proof. intros H. unfold Read. rewrite H. reflexivity. Qed.

Lemma Read_filled (reader : Reader) (n : nat) (rd : list N) :
  (n ≤ length rd)%nat → fillsBuffer reader n (length rd) →
  Read reader n rd = (take n rd, None, drop n rd).
Proof.
  intros Hn (k & Hk & Hle). rewrite (Read_delivered reader n k None rd Hk).
  replace (Nat.min k (Nat.min n (length rd))) with n by lia.
  rewrite Nat.sub_diag. cbn [replicate]. rewrite app_nil_r. reflexivity.
Qed.

Lemma bytesReader_fills : fills bytesReader.
Proof.
  intros n avail Hn. unfold fillsBuffer, bytesReader. cbn [deliver].
  destruct avail as [|avail]; [lia|].
  exists (Nat.min n (S avail)). split; [reflexivity|lia].
Qed.

Lemma bytesReader_first (avail : nat) : deliversFirst bytesReader (S avail).
Proof. exists 0%nat. reflexivity. Qed.

Lemma fills_first (reader : Reader) (avail : nat) :
  fills reader → deliversFirst reader (S avail).
Proof.
  intros Hf. destruct (Hf 1%nat (S avail) ltac:(lia)) as (k & Hk & Hle).
  destruct k as [|k]; [lia|]. exists k. exact Hk.
Qed.

Lemma Read_enough (n : nat) (rd : list N) :
  (0 < n ≤ length rd)%nat → Read bytesReader n rd = (take n rd, None, drop n rd).
Proof. intros Hn. apply Read_filled; [lia|]. apply bytesReader_fills, Hn. Qed.

Lemma Read_short (n : nat) (rd : list N) :
  (0 < length rd < n)%nat →
  Read bytesReader n rd = (rd ++ replicate (n - length rd) 0, None, []).
Proof.
  intros [Hpos Hn].
  assert (Hd : deliver bytesReader n (length rd) = (length rd, None)).
  { unfold bytesReader. cbn [deliver]. destruct n as [|n]; [lia|].
    destruct (length rd) as [|l]; [lia|]. f_equal. lia. }
  rewrite (Read_delivered _ _ _ _ _ Hd).
  replace (Nat.min (length rd) (Nat.min n (length rd))) with (length rd) by lia.
  rewrite take_ge, drop_ge by lia. reflexivity.
Qed.

(** The first [Read], on a buffer of one byte. *)
Lemma Read_first (reader : Reader) (b : N) (rd : list N) :
  Read reader 1 (b :: rd) =
  match deliver reader 1 (S (length rd)) with
  | (O, e) => ([0], e, b :: rd)
  | (S _, e) => ([b], e, rd)
  end.
Proof.
  unfold Read. cbn [length].
  destruct (deliver reader 1 (S (length rd))) as [[|k] e]; [reflexivity|].
  replace (Nat.min (S k) (Nat.min 1 (S (length rd)))) with 1%nat by lia.
  reflexivity.
Qed.

Section DecodeProperties.

Variable reader : Reader.
Variable codec : PrimitiveCodec.
Variable rangeV : gmap N Variant → list (N * Variant).

(** The fixed part of the preamble takes eleven bytes after the
    marker, and the header array starts at offset 12. *)
Lemma DecodeMulti_eq (order : ByteOrder) (ty fl pr l0 l1 l2 l3 s0 s1 s2 s3 : N)
    (rd : list N) :
  DecodeMulti codec
    (MkDecoder (ty :: fl :: pr :: l0 :: l1 :: l2 :: l3 :: s0 :: s1 :: s2 :: s3 :: rd)
               order 1) =
  match decodeHeaders codec (MkDecoder rd order 12) with
  | (inl e, dec) => (inl e, dec)
  | (inr hs, dec) =>
      (inr (MkPreamble ty fl pr (getUint32 order [l0; l1; l2; l3])
              (getUint32 order [s0; s1; s2; s3]) hs), dec)
  end.
Proof.
  unfold DecodeMulti, dbind, dret, decodeByte, decodeUint32, dec_align.
  cbn [dec_rd dec_order dec_pos].
  change (padding (1 + 1 + 1 + 1) 4) with 0%nat.
  cbn [drop dec_rd dec_order dec_pos length Nat.ltb Nat.leb take].
  change (padding (1 + 1 + 1 + 1 + 0 + 4) 4) with 0%nat.
  cbn [drop dec_rd dec_order dec_pos length Nat.ltb Nat.leb take].
  change (1 + 1 + 1 + 1 + 0 + 4 + 0 + 4)%nat with 12%nat.
  change (drop 0 rd) with rd. change (take 0 rd) with (@nil N).
  destruct (decodeHeaders codec (MkDecoder rd order 12)) as [[e|hs] dec]; reflexivity.
Qed.

Lemma DecodeMulti_inv (order : ByteOrder) (rd : list N) (p : Preamble) (dec' : Decoder) :
  DecodeMulti codec (MkDecoder rd order 1) = (inr p, dec') →
  p_length p = getUint32 order (take 4 (drop 3 rd)) ∧
  p_serial p = getUint32 order (take 4 (drop 7 rd)) ∧
  decodeHeaders codec (MkDecoder (drop 11 rd) order 12) = (inr (p_headers p), dec').
Proof.
  intros H.
  do 11 (destruct rd as [|? rd];
         [unfold DecodeMulti, dbind, decodeByte, decodeUint32, dec_align in H;
          cbn in H; discriminate|]).
  rewrite DecodeMulti_eq in H. cbn [drop take].
  destruct (decodeHeaders codec (MkDecoder rd order 12)) as [[e|hs] dec] eqn:Hh;
    [discriminate|].
  injection H as <- <-. split; [reflexivity|]. split; [reflexivity|]. exact Hh.
Qed.

(** [DecodeMessage] past the byte-order marker, when the first [Read]
    has delivered it. *)
Lemma DecodeMessage_marker (b : N) (rd : list N) :
  deliversFirst reader (S (length rd)) →
  DecodeMessage reader codec rangeV (b :: rd) =
  match orderOfMarker b with
  | None => (inl (InvalidMessageError "invalid byte order"), rd)
  | Some order =>
      match DecodeMulti codec (MkDecoder rd order 1) with
      | (inl e, dec) => (inl e, dec_rd dec)
      | (inr p, dec) =>
          let '(body, err, rest) :=
            bodyRead reader (p_length p) (dec_rd (dec_align 8 dec)) in
          match err with
          | Some e => (inl e, rest)
          | None =>
              let message :=
                MkMessage order (p_type p) (p_flags p) (p_serial p)
                          (buildHeaders (p_headers p)) body in
              match IsValid rangeV message with
              | Some e => (inl e, rest)
              | None => (inr message, rest)
              end
          end
      end
  end.
Proof.
  intros [k Hk]. unfold DecodeMessage. rewrite Read_first, Hk. reflexivity.
Qed.

(** An error of the first [Read] is returned, whether or not the call
    delivered the byte. *)
Lemma DecodeMessage_first_error (b : N) (rd : list N) (k : nat) (e : error) :
  deliver reader 1 (S (length rd)) = (k, Some e) →
  DecodeMessage reader codec rangeV (b :: rd) =
    (inl e, match k with O => b :: rd | S _ => rd end).
Proof.
  intros Hk. unfold DecodeMessage. rewrite Read_first, Hk.
  destruct k; reflexivity.
Qed.

(** A first [Read] that delivers nothing and reports no error leaves the
    zero byte of [make] in the buffer. *)
Lemma DecodeMessage_first_nothing (b : N) (rd : list N) :
  deliver reader 1 (S (length rd)) = (O, None) →
  DecodeMessage reader codec rangeV (b :: rd) =
    (inl (InvalidMessageError "invalid byte order"), b :: rd).
Proof.
  intros Hk. unfold DecodeMessage. rewrite Read_first, Hk. reflexivity.
Qed.

(** Nothing decodes from a stream that has ended: the first [Read]
    reports an error, or leaves the zero byte of [make] in the buffer,
    which is no marker. *)
Lemma DecodeMessage_nil : ∃ e, DecodeMessage reader codec rangeV [] = (inl e, []).
Proof.
  unfold DecodeMessage, Read. cbn [length].
  destruct (deliver reader 1 0) as [k [e|]].
  - exists e. rewrite Nat.min_0_r. reflexivity.
  - eexists. rewrite Nat.min_0_r. reflexivity.
Qed.

(** A successful decoding, taken apart. *)
Lemma DecodeMessage_inv (b : N) (rd : list N) (m : Message) (rest : list N) :
  DecodeMessage reader codec rangeV (b :: rd) = (inr m, rest) →
  deliversFirst reader (S (length rd)) ∧
  ∃ order p dec',
    orderOfMarker b = Some order ∧
    DecodeMulti codec (MkDecoder rd order 1) = (inr p, dec') ∧
    bodyRead reader (p_length p) (dec_rd (dec_align 8 dec')) = (Body m, None, rest) ∧
    m = MkMessage order (p_type p) (p_flags p) (p_serial p)
                  (buildHeaders (p_headers p)) (Body m) ∧
    IsValid rangeV m = None.
Proof.
  destruct (deliver reader 1 (S (length rd))) as [k [e|]] eqn:Hk.
  { rewrite (DecodeMessage_first_error b rd k e Hk). discriminate. }
  destruct k as [|k]; [rewrite (DecodeMessage_first_nothing b rd Hk); discriminate|].
  assert (Hfirst : deliversFirst reader (S (length rd))) by (exists k; exact Hk).
  rewrite (DecodeMessage_marker b rd Hfirst).
  destruct (orderOfMarker b) as [order|]; [|discriminate].
  destruct (DecodeMulti codec (MkDecoder rd order 1)) as [[e|p] dec'] eqn:Hp; [discriminate|].
  destruct (bodyRead reader (p_length p) (dec_rd (dec_align 8 dec')))
    as [[body err] rest'] eqn:Hb.
  destruct err; [discriminate|]. cbv zeta.
  match goal with |- context [IsValid rangeV ?msg] => destruct (IsValid rangeV msg) eqn:Hv end;
    [discriminate|].
  intros [= <- <-]. split; [exact Hfirst|]. exists order, p, dec'. cbn [Body]. auto.
Qed.

End DecodeProperties.

(** ** The byte order *)

Lemma orderOfMarker_Some (b : N) (o : ByteOrder) :
  orderOfMarker b = Some o ↔
  (b = char "l" ∧ o = LittleEndian) ∨ (b = char "B" ∧ o = BigEndian).
Proof.
  unfold orderOfMarker.
  destruct (N.eqb_spec b (char "l")) as [->|Hl].
  - split; [intros [= <-]; auto|]. intros [[_ ->]|[H _]]; [reflexivity|discriminate].
  - destruct (N.eqb_spec b (char "B")) as [->|HB].
    + split; [intros [= <-]; auto|]. intros [[H _]|[_ ->]]; [discriminate|reflexivity].
    + split; [discriminate|]. intros [[H _]|[H _]]; contradiction.
Qed.

Lemma orderOfMarker_None (b : N) :
  b ≠ char "l" → b ≠ char "B" → orderOfMarker b = None.
Proof.
  intros Hl HB. unfold orderOfMarker.
  destruct (N.eqb_spec b (char "l")); [contradiction|].
  destruct (N.eqb_spec b (char "B")); [contradiction|]. reflexivity.
Qed.

Lemma bodyRead_length (reader : Reader) (len : N) (rd : list N) :
  length (bodyRead reader len rd).1.1 = N.to_nat len.
Proof.
  unfold bodyRead. destruct (N.eqb_spec len 0) as [->|Hne]; simpl; [reflexivity|].
  apply Read_length.
Qed.

(** What a successful decoding says of the stream: the marker names the
    order of the message, and the length of the body, the serial and the
    header array are read in that order. *)
Lemma DecodeMessage_order (reader : Reader) (codec : PrimitiveCodec)
    (rangeV : gmap N Variant → list (N * Variant))
    (b : N) (rd : list N) (m : Message) (rest : list N) :
  DecodeMessage reader codec rangeV (b :: rd) = (inr m, rest) →
  orderOfMarker b = Some (Order m) ∧
  N.of_nat (length (Body m)) = getUint32 (Order m) (take 4 (drop 3 rd)) ∧
  Serial m = getUint32 (Order m) (take 4 (drop 7 rd)) ∧
  ∃ hs dec', decodeHeaders codec (MkDecoder (drop 11 rd) (Order m) 12) = (inr hs, dec') ∧
             Headers m = buildHeaders hs.
Proof.
  intros H.
  apply DecodeMessage_inv in H as (_ & order & p & dec' & Ho & Hp & Hb & Hm & Hv).
  apply DecodeMulti_inv in Hp as (Hlen & Hser & Hh).
  assert (Horder : Order m = order) by (rewrite Hm; reflexivity).
  rewrite Horder. split; [assumption|]. split; [|split].
  - rewrite <- Hlen.
    pose proof (bodyRead_length reader (p_length p) (dec_rd (dec_align 8 dec'))) as Hl.
    rewrite Hb in Hl. simpl in Hl. rewrite Hl. apply N2Nat.id.
  - rewrite <- Hser, Hm. reflexivity.
  - exists (p_headers p), dec'. split; [assumption|]. rewrite Hm. reflexivity.
Qed.

(** The decoding of a stream, byte by byte: after a marker that selects
    [order], the type, the flags and the protocol version, the length of
    the body and the serial are read from four bytes each in [order],
    the header array is decoded in [order] at offset 12, and the message
    is returned when the body is read and the message is valid. *)
Lemma DecodeMessage_fields (reader : Reader) (codec : PrimitiveCodec)
    (rangeV : gmap N Variant → list (N * Variant))
    (b : N) (order : ByteOrder) (ty fl pr l0 l1 l2 l3 s0 s1 s2 s3 : N)
    (rest : list N) (hs : list header) (dec' : Decoder) (body rest' : list N) :
  deliversFirst reader (12 + length rest) →
  orderOfMarker b = Some order →
  decodeHeaders codec (MkDecoder rest order 12) = (inr hs, dec') →
  bodyRead reader (getUint32 order [l0; l1; l2; l3]) (dec_rd (dec_align 8 dec'))
    = (body, None, rest') →
  IsValid rangeV
    (MkMessage order ty fl (getUint32 order [s0; s1; s2; s3]) (buildHeaders hs) body) = None →
  DecodeMessage reader codec rangeV
    (b :: ty :: fl :: pr :: l0 :: l1 :: l2 :: l3 :: s0 :: s1 :: s2 :: s3 :: rest) =
  (inr (MkMessage order ty fl (getUint32 order [s0; s1; s2; s3]) (buildHeaders hs) body),
   rest').
Proof.
  intros Hfirst Ho Hh Hb Hv.
  rewrite DecodeMessage_marker by exact Hfirst.
  rewrite Ho, DecodeMulti_eq, Hh.
  cbn [p_length p_type p_flags p_serial p_headers]. rewrite Hb. cbv zeta.
  rewrite Hv. reflexivity.
Qed.

(** C4, with the input where the code departs from it.  [DecodeMessage]
    looks at the error of its first [Read] before it looks at the byte:
    when the reader delivers the first byte together with an error, as
    [io.Reader] allows for the last bytes of a stream, that error is
    returned, whatever the byte, and not the error of an invalid byte
    order.  When the byte is delivered without an error: a byte that is
    neither ['l'] nor ['B'] gives the error of an invalid byte order and
    leaves the stream after that byte untouched; after ['l'] the length
    of the body, the serial and the header array are read in
    little-endian order and after ['B'] in big-endian order, and the
    message returned carries that order; a decoding that succeeds had
    ['l'] or ['B'] as its first byte. *)
Theorem DecodeMessage_byte_order (reader : Reader) (codec : PrimitiveCodec)
    (rangeV : gmap N Variant → list (N * Variant)) (b : N) (rd : list N) :
  (∀ k e, deliver reader 1 (S (length rd)) = (S k, Some e) →
          DecodeMessage reader codec rangeV (b :: rd) = (inl e, rd)) ∧
  (deliversFirst reader (S (length rd)) → b ≠ char "l" → b ≠ char "B" →
   DecodeMessage reader codec rangeV (b :: rd) =
   (inl (InvalidMessageError "invalid byte order"), rd)) ∧
  (∀ order ty fl pr l0 l1 l2 l3 s0 s1 s2 s3 rest hs dec' body rest',
     (b, order) ∈ [(char "l", LittleEndian); (char "B", BigEndian)] →
     rd = ty :: fl :: pr :: l0 :: l1 :: l2 :: l3 :: s0 :: s1 :: s2 :: s3 :: rest →
     deliversFirst reader (S (length rd)) →
     decodeHeaders codec (MkDecoder rest order 12) = (inr hs, dec') →
     bodyRead reader (getUint32 order [l0; l1; l2; l3]) (dec_rd (dec_align 8 dec'))
       = (body, None, rest') →
     IsValid rangeV
       (MkMessage order ty fl (getUint32 order [s0; s1; s2; s3]) (buildHeaders hs) body)
       = None →
     DecodeMessage reader codec rangeV (b :: rd) =
     (inr (MkMessage order ty fl (getUint32 order [s0; s1; s2; s3]) (buildHeaders hs) body),
      rest')) ∧
  (∀ m rest,
     DecodeMessage reader codec rangeV (b :: rd) = (inr m, rest) →
     ((b = char "l" ∧ Order m = LittleEndian) ∨ (b = char "B" ∧ Order m = BigEndian)) ∧
     N.of_nat (length (Body m)) = getUint32 (Order m) (take 4 (drop 3 rd)) ∧
     Serial m = getUint32 (Order m) (take 4 (drop 7 rd)) ∧
     ∃ hs dec', decodeHeaders codec (MkDecoder (drop 11 rd) (Order m) 12) = (inr hs, dec') ∧
                Headers m = buildHeaders hs).
Proof.
  split; [|split; [|split]].
  - intros k e Hk. apply (DecodeMessage_first_error reader codec rangeV b rd (S k) e Hk).
  - intros Hfirst Hl HB.
    rewrite DecodeMessage_marker, orderOfMarker_None by assumption. reflexivity.
  - intros order ty fl pr l0 l1 l2 l3 s0 s1 s2 s3 rest hs dec' body rest' Hin -> Hfirst
      Hh Hb Hv.
    apply (DecodeMessage_fields reader codec rangeV b order ty fl pr l0 l1 l2 l3 s0 s1 s2 s3
             rest hs dec' body rest'); try assumption.
    apply orderOfMarker_Some.
    apply elem_of_cons in Hin as [[= -> ->]|Hin]; [left; auto|].
    apply elem_of_cons in Hin as [[= -> ->]|Hin]; [right; auto|inversion Hin].
  - intros m rest H. apply DecodeMessage_order in H as (Ho & Hrest).
    split; [apply orderOfMarker_Some; assumption|exact Hrest].
Qed.

(** [DecodeMessage_byte_order] on scenario C of the specification, the
    stream of the single byte [0x41]: read through a reader that
    delivers the byte together with [io.EOF], the result is [io.EOF];
    read through [bytes.Reader], it is the error of an invalid byte
    order.  And on a reply in big-endian order, which decodes to
    [replyBE], with the serial [1] read from the bytes [0; 0; 0; 1]. *)
Lemma DecodeMessage_byte_order_witness :
  DecodeMessage dataErrReader Wire.codec map_to_list [65] = (inl EOF, []) ∧
  DecodeMessage bytesReader Wire.codec map_to_list [65] =
    (inl (InvalidMessageError "invalid byte order"), []) ∧
  DecodeMessage bytesReader Wire.codec map_to_list bigEndianReply = (inr replyBE, []).
Proof.
  split; [|split].
  - apply (proj1 (DecodeMessage_byte_order dataErrReader Wire.codec map_to_list 65 [])
             0%nat EOF).
    reflexivity.
  - apply (proj1 (proj2 (DecodeMessage_byte_order bytesReader Wire.codec map_to_list 65 []))).
    + apply bytesReader_first.
    + discriminate.
    + discriminate.
  - assert (Hm : MkMessage BigEndian 2 0 (getUint32 BigEndian [0; 0; 0; 1])
                   (buildHeaders [MkHeader 5 (MkVariant "u" (VUint32 7))]) [] = replyBE)
      by (vm_compute; reflexivity).
    rewrite <- Hm.
    apply (proj1 (proj2 (proj2
             (DecodeMessage_byte_order bytesReader Wire.codec map_to_list 66
                (drop 1 bigEndianReply))))
             BigEndian 2 0 1 0 0 0 0 0 0 0 1 (drop 12 bigEndianReply)
             [MkHeader 5 (MkVariant "u" (VUint32 7))] (MkDecoder [] BigEndian 24) [] []).
    + apply list_elem_of_further, list_elem_of_here.
    + reflexivity.
    + apply bytesReader_first.
    + vm_compute. reflexivity.
    + reflexivity.
    + vm_compute. reflexivity.
Defined.

Lemma IsValid_withOrder (range : gmap N Variant → list (N * Variant))
    (o : ByteOrder) (m : Message) :
  orderKnown m → o ≠ OtherOrder → IsValid range (withOrder o m) = IsValid range m.
Proof.
  intros [Hm|Hm] Ho; unfold IsValid, withOrder; cbn [Order Flags Type_ Headers Body];
    rewrite Hm; destruct o; try reflexivity; contradiction.
Qed.

Lemma assemble_marker_only (codec : PrimitiveCodec)
    (rangeE : gmap N Variant → list (N * Variant)) (marker : N) (o : ByteOrder) (m : Message) :
  drop 1 (assemble codec rangeE marker (withOrder o m)) = drop 1 (assemble codec rangeE 0 m).
Proof. rewrite !assemble_layout. reflexivity. Qed.

(** C2.  On a valid message the first byte that [EncodeTo] writes is
    ['l'] when the order of the message is little-endian and ['B'] when
    it is big-endian, while the length of the body, the serial and the
    header array are written in little-endian order whatever the order
    of the message: the bytes after the marker are the same for the
    message in either order.  [DecodeMessage] reads the length of the
    body, the serial and the header array in the order that the marker
    byte selects: after ['l'] in little-endian and after ['B'] in
    big-endian order, it returns the message with the fields read in
    that order, and a message it returns was read in the order of its
    marker. *)
Theorem EncodeTo_little_endian_DecodeMessage_by_marker
    (reader : Reader) (codec : PrimitiveCodec)
    (rangeV rangeE : gmap N Variant → list (N * Variant))
    (m : Message) :
  IsValid rangeV m = None →
  let w := written (EncodeTo codec rangeV rangeE m emptyTrace) in
  ((Order m = LittleEndian ∧ w !! 0%nat = Some (char "l")) ∨
   (Order m = BigEndian ∧ w !! 0%nat = Some (char "B"))) ∧
  take 4 (drop 4 w) = putUint32 LittleEndian (N.of_nat (length (Body m)) mod 2 ^ 32) ∧
  take 4 (drop 8 w) = putUint32 LittleEndian (Serial m) ∧
  (∃ tail, drop 12 w =
           encodeHeaders codec LittleEndian 12 (flattenHeaders (rangeE (Headers m))) ++ tail) ∧
  (∀ o, o ≠ OtherOrder →
        drop 1 (written (EncodeTo codec rangeV rangeE (withOrder o m) emptyTrace)) = drop 1 w) ∧
  (∀ b rd m' rest,
     DecodeMessage reader codec rangeV (b :: rd) = (inr m', rest) →
     orderOfMarker b = Some (Order m') ∧
     N.of_nat (length (Body m')) = getUint32 (Order m') (take 4 (drop 3 rd)) ∧
     Serial m' = getUint32 (Order m') (take 4 (drop 7 rd)) ∧
     ∃ hs dec', decodeHeaders codec (MkDecoder (drop 11 rd) (Order m') 12) = (inr hs, dec') ∧
                Headers m' = buildHeaders hs) ∧
  (∀ b order ty fl pr l0 l1 l2 l3 s0 s1 s2 s3 rest hs dec' body rest',
     (b, order) ∈ [(char "l", LittleEndian); (char "B", BigEndian)] →
     deliversFirst reader (12 + length rest) →
     decodeHeaders codec (MkDecoder rest order 12) = (inr hs, dec') →
     bodyRead reader (getUint32 order [l0; l1; l2; l3]) (dec_rd (dec_align 8 dec'))
       = (body, None, rest') →
     IsValid rangeV
       (MkMessage order ty fl (getUint32 order [s0; s1; s2; s3]) (buildHeaders hs) body)
       = None →
     DecodeMessage reader codec rangeV
       (b :: ty :: fl :: pr :: l0 :: l1 :: l2 :: l3 :: s0 :: s1 :: s2 :: s3 :: rest) =
     (inr (MkMessage order ty fl (getUint32 order [s0; s1; s2; s3]) (buildHeaders hs) body),
      rest')).
Proof.
  intros Hv w.
  destruct (written_valid codec rangeV rangeE m Hv) as (marker & Hm & Hw).
  fold w in Hw.
  assert (Hok : orderKnown m).
  { unfold orderKnown. destruct (Order m); auto; discriminate. }
  split; [|split; [|split; [|split; [|split; [|split]]]]].
  - rewrite Hw, assemble_layout. cbn [app lookup list_lookup].
    destruct (Order m); [left|right|discriminate]; injection Hm as <-; auto.
  - rewrite Hw, assemble_layout. reflexivity.
  - rewrite Hw, assemble_layout. reflexivity.
  - rewrite Hw, assemble_layout. eexists. reflexivity.
  - intros o Ho.
    assert (Hv' : IsValid rangeV (withOrder o m) = None)
      by (rewrite IsValid_withOrder; assumption).
    destruct (written_valid codec rangeV rangeE (withOrder o m) Hv') as (marker' & _ & Hw').
    rewrite Hw', Hw, assemble_marker_only.
    rewrite !assemble_layout. reflexivity.
  - intros b rd m' rest H. apply (DecodeMessage_order reader codec rangeV b rd m' rest H).
  - intros b order ty fl pr l0 l1 l2 l3 s0 s1 s2 s3 rest hs dec' body rest' Hin Hfirst
      Hh Hb Hv'.
    apply (DecodeMessage_fields reader codec rangeV b order ty fl pr l0 l1 l2 l3 s0 s1 s2 s3
             rest hs dec' body rest'); try assumption.
    apply orderOfMarker_Some.
    apply elem_of_cons in Hin as [[= -> ->]|Hin]; [left; auto|].
    apply elem_of_cons in Hin as [[= -> ->]|Hin]; [right; auto|inversion Hin].
Qed.

(** [EncodeTo_little_endian_DecodeMessage_by_marker] on a valid message
    in big-endian order.  Written, the marker is ['B'] and the serial
    [1] has its low byte first.  Decoded, a reply whose serial field
    holds the bytes [0; 0; 0; 1] has the serial [1] after the marker
    ['B'], and the serial [2^24] after the marker ['l'], the header
    array being read in the order of the marker as well. *)
Lemma EncodeTo_little_endian_DecodeMessage_by_marker_witness :
  IsValid map_to_list replyBE = None ∧
  encodeWire replyBE !! 0%nat = Some (char "B") ∧
  take 4 (drop 8 (encodeWire replyBE)) = [1; 0; 0; 0] ∧
  DecodeMessage bytesReader Wire.codec map_to_list bigEndianReply = (inr replyBE, []) ∧
  DecodeMessage bytesReader Wire.codec map_to_list
    [108; 2; 0; 1; 0; 0; 0; 0; 0; 0; 0; 1; 8; 0; 0; 0; 5; 1; 117; 0; 7; 0; 0; 0] =
    (inr (MkMessage LittleEndian 2 0 (2 ^ 24) (Headers replyBE) []), []).
Proof.
  assert (Hv : IsValid map_to_list replyBE = None) by (vm_compute; reflexivity).
  split; [exact Hv|].
  destruct (EncodeTo_little_endian_DecodeMessage_by_marker bytesReader
              Wire.codec map_to_list map_to_list replyBE Hv)
    as ([[Ho _]|[_ Hb]] & _ & Hs & _ & _ & _ & Hdec).
  - discriminate.
  - split; [exact Hb|]. split; [exact Hs|]. split.
    + assert (Hm : MkMessage BigEndian 2 0 (getUint32 BigEndian [0; 0; 0; 1])
                     (buildHeaders [MkHeader 5 (MkVariant "u" (VUint32 7))]) [] = replyBE)
        by (vm_compute; reflexivity).
      rewrite <- Hm.
      apply (Hdec 66 BigEndian 2 0 1 0 0 0 0 0 0 0 1 (drop 12 bigEndianReply)
               [MkHeader 5 (MkVariant "u" (VUint32 7))] (MkDecoder [] BigEndian 24) [] []).
      * apply list_elem_of_further, list_elem_of_here.
      * apply bytesReader_first.
      * vm_compute. reflexivity.
      * reflexivity.
      * vm_compute. reflexivity.
    + assert (Hm : MkMessage LittleEndian 2 0 (getUint32 LittleEndian [0; 0; 0; 1])
                     (buildHeaders [MkHeader 5 (MkVariant "u" (VUint32 7))]) [] =
                   MkMessage LittleEndian 2 0 (2 ^ 24) (Headers replyBE) [])
        by (vm_compute; reflexivity).
      rewrite <- Hm.
      apply (Hdec 108 LittleEndian 2 0 1 0 0 0 0 0 0 0 1 [8; 0; 0; 0; 5; 1; 117; 0; 7; 0; 0; 0]
               [MkHeader 5 (MkVariant "u" (VUint32 7))] (MkDecoder [] LittleEndian 24) [] []).
      * apply list_elem_of_here.
      * apply bytesReader_first.
      * vm_compute. reflexivity.
      * reflexivity.
      * vm_compute. reflexivity.
Defined.

(** ** The length of the body *)

Lemma bodyLengthField_assemble (codec : PrimitiveCodec)
    (rangeE : gmap N Variant → list (N * Variant)) (marker : N) (m : Message) :
  bodyLengthField (assemble codec rangeE marker m) = N.of_nat (length (Body m)) mod 2 ^ 32.
Proof.
  unfold bodyLengthField.
  assert (H : take 4 (drop 4 (assemble codec rangeE marker m)) =
              putUint32 LittleEndian (N.of_nat (length (Body m)) mod 2 ^ 32))
    by (rewrite assemble_layout; reflexivity).
  rewrite H, getUint32_putUint32 by discriminate.
  apply N.Div0.mod_mod.
Qed.

Lemma assemble_body (codec : PrimitiveCodec)
    (rangeE : gmap N Variant → list (N * Variant)) (marker : N) (m : Message) :
  ∃ pre, assemble codec rangeE marker m = pre ++ Body m ∧
         (length pre mod 8 = 0)%nat ∧ (12 ≤ length pre)%nat.
Proof.
  rewrite assemble_layout.
  set (hs := encodeHeaders codec LittleEndian 12 (flattenHeaders (rangeE (Headers m)))).
  exists ([marker; Type_ m; Flags m; protoVersion]
            ++ putUint32 LittleEndian (N.of_nat (length (Body m)) mod 2 ^ 32)
            ++ putUint32 LittleEndian (Serial m)
            ++ hs ++ replicate (padding (12 + length hs) 8) 0).
  split; [rewrite <- !app_assoc; reflexivity|].
  rewrite !length_app, !putUint32_length, length_replicate by discriminate.
  cbn [length].
  replace (4 + (4 + (4 + (length hs + padding (12 + length hs) 8))))%nat
    with (12 + length hs + padding (12 + length hs) 8)%nat by lia.
  split; [apply padding_aligned|lia].
Qed.

(** C8, as the code has it.  On a valid message the body-length field
    that [EncodeTo] writes is the number of bytes of [Body] reduced
    modulo [2^32] by the conversion to [uint32]; it is the number of
    bytes of [Body] whenever that number is below [2^32].  The bytes
    written are a prefix whose length is a multiple of eight (preamble,
    header array and padding) followed by the bytes of [Body], and by
    nothing when [Body] is empty. *)
Theorem EncodeTo_body_length
    (codec : PrimitiveCodec) (rangeV rangeE : gmap N Variant → list (N * Variant))
    (m : Message) :
  IsValid rangeV m = None →
  let w := written (EncodeTo codec rangeV rangeE m emptyTrace) in
  bodyLengthField w = N.of_nat (length (Body m)) mod 2 ^ 32 ∧
  (N.of_nat (length (Body m)) < 2 ^ 32 → bodyLengthField w = N.of_nat (length (Body m))) ∧
  ∃ pre, w = pre ++ Body m ∧ (length pre mod 8 = 0)%nat ∧ (12 ≤ length pre)%nat.
Proof.
  intros Hv w.
  destruct (written_valid codec rangeV rangeE m Hv) as (marker & Hm & Hw).
  fold w in Hw. rewrite Hw.
  split; [apply bodyLengthField_assemble|].
  split; [|apply assemble_body].
  intros Hlt. rewrite bodyLengthField_assemble. apply N.mod_small. assumption.
Qed.

(** [EncodeTo_body_length] on a reply with a body of four bytes. *)
Lemma EncodeTo_body_length_witness :
  IsValid map_to_list replyLE = None ∧
  bodyLengthField (encodeWire replyLE) = 4 ∧
  ∃ pre, encodeWire replyLE = pre ++ [1; 2; 3; 4] ∧ (length pre mod 8 = 0)%nat.
Proof.
  assert (Hv : IsValid map_to_list replyLE = None) by (vm_compute; reflexivity).
  split; [exact Hv|].
  destruct (EncodeTo_body_length Wire.codec map_to_list map_to_list replyLE Hv)
    as (_ & Hlen & pre & Hw & Hal & _).
  split.
  - apply Hlen. vm_compute. reflexivity.
  - exists pre. split; [exact Hw|exact Hal].
Defined.

Lemma replyHuge_valid : IsValid map_to_list replyHuge = None.
Proof.
  apply IsValid_None.
  - intros h. reflexivity.
  - change (Flags replyHuge) with 0. reflexivity.
  - split; [left; reflexivity|].
    split; [intros i Hi; change (Flags replyHuge) with 0 in Hi; rewrite N.bits_0 in Hi;
            discriminate|].
    split; [unfold typeKnown; change (Type_ replyHuge) with TypeMethodReply; set_solver|].
    split; [|split].
    + intros k v Hkv.
      change (Headers replyHuge) with
        (<[FieldReplySerial := MkVariant "u" (VUint32 7)]>
           (<[FieldSignature := MkVariant "g" (VSignature "ay")]> (∅ : gmap N Variant))) in Hkv.
      apply lookup_insert_Some in Hkv as [[<- <-]|[_ Hkv]].
      { vm_compute. split; [discriminate|]. split; [eauto|reflexivity]. }
      apply lookup_insert_Some in Hkv as [[<- <-]|[_ Hkv]].
      { vm_compute. split; [discriminate|]. split; [eauto|reflexivity]. }
      rewrite lookup_empty in Hkv. discriminate.
    + intros f Hf. change (Type_ replyHuge) with TypeMethodReply in Hf.
      change (default [] (requiredFields !! TypeMethodReply)) with [FieldReplySerial] in Hf.
      apply elem_of_cons in Hf as [->|Hf]; [|inversion Hf].
      change (Headers replyHuge) with
        (<[FieldReplySerial := MkVariant "u" (VUint32 7)]>
           (<[FieldSignature := MkVariant "g" (VSignature "ay")]> (∅ : gmap N Variant))).
      rewrite lookup_insert_eq. eauto.
    + intros _.
      change (Headers replyHuge) with
        (<[FieldReplySerial := MkVariant "u" (VUint32 7)]>
           (<[FieldSignature := MkVariant "g" (VSignature "ay")]> (∅ : gmap N Variant))).
      rewrite lookup_insert_ne by discriminate. rewrite lookup_insert_eq. eauto.
Qed.

Lemma replyHuge_length : N.of_nat (length (Body replyHuge)) = 2 ^ 32.
Proof.
  change (Body replyHuge) with (replicate (N.to_nat (2 ^ 32)) 0).
  rewrite length_replicate. apply N2Nat.id.
Qed.

(** C8, as the claim has it, fails on a body of [2^32] bytes: the
    message is valid, and the body-length field written is [0]. *)
Lemma huge_body_length_wraps :
  ¬ (IsValid map_to_list replyHuge = None →
     bodyLengthField (written (EncodeTo Wire.codec map_to_list map_to_list replyHuge emptyTrace))
     = N.of_nat (length (Body replyHuge))).
Proof.
  intros H. specialize (H replyHuge_valid).
  destruct (written_valid Wire.codec map_to_list map_to_list replyHuge replyHuge_valid)
    as (marker & _ & Hw).
  rewrite Hw, bodyLengthField_assemble, replyHuge_length in H.
  rewrite N.Div0.mod_same in H. clear Hw. discriminate H.
Qed.

(** ** The body of a decoded message *)

Section BodyProperties.

Variable reader : Reader.
Variable codec : PrimitiveCodec.
Variable rangeV : gmap N Variant → list (N * Variant).

(** The body of a decoded message has the length that the body-length
    field announces.  It is made of the bytes that the one [Read]
    delivered, followed by zero bytes, and the stream is left after the
    bytes delivered.  Where the reader fills the buffer, the body is the
    next bytes of the stream, as many as announced; a length of zero
    reads nothing. *)
Lemma DecodeMessage_body (b : N) (rd : list N) (order : ByteOrder) (p : Preamble)
    (dec' : Decoder) (m : Message) (rest : list N) :
  orderOfMarker b = Some order →
  DecodeMulti codec (MkDecoder rd order 1) = (inr p, dec') →
  DecodeMessage reader codec rangeV (b :: rd) = (inr m, rest) →
  length (Body m) = N.to_nat (p_length p) ∧
  (p_length p = 0 → Body m = [] ∧ rest = dec_rd (dec_align 8 dec')) ∧
  (p_length p ≠ 0 →
   ∃ k delivered,
     deliver reader (N.to_nat (p_length p)) (length (dec_rd (dec_align 8 dec')))
       = (delivered, None) ∧
     k = Nat.min delivered
           (Nat.min (N.to_nat (p_length p)) (length (dec_rd (dec_align 8 dec')))) ∧
     Body m = take k (dec_rd (dec_align 8 dec'))
                ++ replicate (N.to_nat (p_length p) - k) 0 ∧
     rest = drop k (dec_rd (dec_align 8 dec'))) ∧
  ((N.to_nat (p_length p) ≤ length (dec_rd (dec_align 8 dec')))%nat →
   fillsBuffer reader (N.to_nat (p_length p)) (length (dec_rd (dec_align 8 dec'))) →
   Body m = take (N.to_nat (p_length p)) (dec_rd (dec_align 8 dec')) ∧
   rest = drop (N.to_nat (p_length p)) (dec_rd (dec_align 8 dec'))).
Proof.
  intros Ho Hp H.
  apply DecodeMessage_inv in H as (_ & order' & p' & dec'' & Ho' & Hp' & Hb & _ & _).
  rewrite Ho in Ho'. injection Ho' as <-. rewrite Hp in Hp'. injection Hp' as <- <-.
  split; [|split; [|split]].
  - pose proof (bodyRead_length reader (p_length p) (dec_rd (dec_align 8 dec'))) as Hl.
    rewrite Hb in Hl. exact Hl.
  - intros Hz. unfold bodyRead in Hb. rewrite Hz in Hb. cbn in Hb.
    injection Hb as <- <-. split; reflexivity.
  - intros Hnz. unfold bodyRead in Hb.
    destruct (N.eqb_spec (p_length p) 0) as [Hz|_]; [contradiction|]. cbn [negb] in Hb.
    destruct (deliver reader (N.to_nat (p_length p)) (length (dec_rd (dec_align 8 dec'))))
      as [delivered e] eqn:Hd.
    rewrite (Read_delivered _ _ _ _ _ Hd) in Hb. injection Hb as <- -> <-.
    eexists _, delivered. split; [reflexivity|]. split; [reflexivity|]. split; reflexivity.
  - intros Hle Hfill. unfold bodyRead in Hb.
    destruct (N.eqb_spec (p_length p) 0) as [Hz|Hnz]; cbn [negb] in Hb.
    + injection Hb as <- <-. rewrite Hz. split; reflexivity.
    + rewrite Read_filled in Hb by assumption. injection Hb as <- <-. split; reflexivity.
Qed.

Lemma DecodeMessage_short (b : N) (rd : list N) (order : ByteOrder) (p : Preamble)
    (dec' : Decoder) :
  orderOfMarker b = Some order →
  DecodeMulti codec (MkDecoder rd order 1) = (inr p, dec') →
  (0 < length (dec_rd (dec_align 8 dec')) < N.to_nat (p_length p))%nat →
  IsValid rangeV
    (MkMessage order (p_type p) (p_flags p) (p_serial p) (buildHeaders (p_headers p))
       (dec_rd (dec_align 8 dec') ++
        replicate (N.to_nat (p_length p) - length (dec_rd (dec_align 8 dec'))) 0)) = None →
  DecodeMessage bytesReader codec rangeV (b :: rd) =
    (inr (MkMessage order (p_type p) (p_flags p) (p_serial p) (buildHeaders (p_headers p))
            (dec_rd (dec_align 8 dec') ++
             replicate (N.to_nat (p_length p) - length (dec_rd (dec_align 8 dec'))) 0)),
     []).
Proof.
  intros Ho Hp Hlen Hv.
  rewrite DecodeMessage_marker by apply bytesReader_first.
  rewrite Ho, Hp. unfold bodyRead.
  destruct (N.eqb_spec (p_length p) 0) as [Hz|Hnz]; [rewrite Hz in Hlen; simpl in Hlen; lia|].
  cbn [negb]. rewrite Read_short by assumption. cbv zeta. rewrite Hv. reflexivity.
Qed.

End BodyProperties.

(** C9, at the input where the code departs from it.  When the stream,
    read through [bytes.Reader], ends inside the body (at least one byte
    of it is there, fewer than the body-length field announces) and the
    message is otherwise valid, [DecodeMessage] does not fail: it
    returns a message whose body is the bytes that were left, followed
    by zero bytes up to the announced length.  The body has the
    announced length, and it is not made of that many bytes of the
    stream. *)
Theorem DecodeMessage_short_body (codec : PrimitiveCodec)
    (rangeV : gmap N Variant → list (N * Variant))
    (b : N) (rd : list N) (order : ByteOrder) (p : Preamble) (dec' : Decoder) :
  orderOfMarker b = Some order →
  DecodeMulti codec (MkDecoder rd order 1) = (inr p, dec') →
  (0 < length (dec_rd (dec_align 8 dec')) < N.to_nat (p_length p))%nat →
  IsValid rangeV
    (MkMessage order (p_type p) (p_flags p) (p_serial p) (buildHeaders (p_headers p))
       (dec_rd (dec_align 8 dec') ++
        replicate (N.to_nat (p_length p) - length (dec_rd (dec_align 8 dec'))) 0)) = None →
  ∃ m, DecodeMessage bytesReader codec rangeV (b :: rd) = (inr m, []) ∧
       Body m = dec_rd (dec_align 8 dec') ++
                replicate (N.to_nat (p_length p) - length (dec_rd (dec_align 8 dec'))) 0 ∧
       length (Body m) = N.to_nat (p_length p) ∧
       (length (dec_rd (dec_align 8 dec')) < length (Body m))%nat.
Proof.
  intros Ho Hp Hlen Hv. eexists. split; [|split; [|split]].
  - apply (DecodeMessage_short codec rangeV b rd order p dec'); assumption.
  - reflexivity.
  - cbn [Body]. rewrite length_app, length_replicate. lia.
  - cbn [Body]. rewrite length_app, length_replicate. lia.
Qed.

Lemma truncatedReply_prefix : truncatedReply = take 33 (encodeWire replyLE).
Proof. vm_compute. reflexivity. Qed.

(** [DecodeMessage_short_body] on the encoding of [replyLE] cut after
    the first of its four body bytes: the decoding succeeds with the
    body [1; 0; 0; 0]. *)
Lemma DecodeMessage_short_body_witness :
  ∃ m, DecodeMessage bytesReader Wire.codec map_to_list truncatedReply = (inr m, []) ∧
       Body m = [1; 0; 0; 0].
Proof.
  destruct (DecodeMessage_short_body Wire.codec map_to_list 108 (drop 1 truncatedReply)
              LittleEndian
              (MkPreamble 2 0 1 4 1
                 [MkHeader 8 (MkVariant "g" (VSignature "u"));
                  MkHeader 5 (MkVariant "u" (VUint32 7))])
              (MkDecoder [1] LittleEndian 32))
    as (m & Hm & Hb & _).
  - reflexivity.
  - vm_compute. reflexivity.
  - vm_compute. lia.
  - vm_compute. reflexivity.
  - exists m. split; [exact Hm|]. rewrite Hb. reflexivity.
Defined.

(** ** The header map of a decoded message *)

Lemma buildHeaders_snoc (hs : list header) (h : header) :
  buildHeaders (hs ++ [h]) = <[HeaderField h := HeaderVariant h]> (buildHeaders hs).
Proof. unfold buildHeaders. rewrite foldl_app. reflexivity. Qed.

(** Every assignment overwrites the earlier ones to the same key: the
    map holds, for a field code, the variant of its last entry. *)
Lemma buildHeaders_lookup (hs : list header) (k : N) :
  buildHeaders hs !! k = lastWithCode k hs.
Proof.
  unfold lastWithCode. induction hs as [|h hs IH] using rev_ind.
  - unfold buildHeaders. simpl. apply lookup_empty.
  - rewrite buildHeaders_snoc, filter_app.
    destruct (decide (HeaderField h = k)) as [Hk|Hk].
    + rewrite Hk, lookup_insert_eq.
      rewrite (filter_cons_True _ h []) by assumption.
      rewrite filter_nil, last_snoc. reflexivity.
    + rewrite lookup_insert_ne by assumption.
      rewrite (filter_cons_False _ h []) by assumption.
      rewrite filter_nil, app_nil_r. exact IH.
Qed.

(** C10.  [DecodeMessage] has no check on the field codes of the header
    array it has read: with the array decoded, it succeeds as soon as
    the body is read and the message built from the array is valid,
    whether or not a field code occurs more than once.  The header map of
    the message binds each field code of the array once, to the variant
    of the last entry with that code; the entries before it with the same
    code leave no trace. *)
Theorem DecodeMessage_duplicate_headers (reader : Reader) (codec : PrimitiveCodec)
    (rangeV : gmap N Variant → list (N * Variant))
    (b : N) (rd : list N) (order : ByteOrder) (p : Preamble) (dec' : Decoder) :
  orderOfMarker b = Some order →
  DecodeMulti codec (MkDecoder rd order 1) = (inr p, dec') →
  (∀ body rest,
     deliversFirst reader (S (length rd)) →
     bodyRead reader (p_length p) (dec_rd (dec_align 8 dec')) = (body, None, rest) →
     IsValid rangeV
       (MkMessage order (p_type p) (p_flags p) (p_serial p) (buildHeaders (p_headers p)) body)
       = None →
     DecodeMessage reader codec rangeV (b :: rd) =
       (inr (MkMessage order (p_type p) (p_flags p) (p_serial p)
               (buildHeaders (p_headers p)) body), rest)) ∧
  (∀ m rest,
     DecodeMessage reader codec rangeV (b :: rd) = (inr m, rest) →
     ∀ k, Headers m !! k = lastWithCode k (p_headers p)).
Proof.
  intros Ho Hp. split.
  - intros body rest Hf Hb Hv. rewrite DecodeMessage_marker by assumption.
    rewrite Ho, Hp, Hb. cbv zeta.
    rewrite Hv. reflexivity.
  - intros m rest H k.
    apply DecodeMessage_inv in H as (_ & order' & p' & dec'' & Ho' & Hp' & _ & Hm & _).
    rewrite Ho in Ho'. injection Ho' as <-. rewrite Hp in Hp'. injection Hp' as <- <-.
    rewrite Hm. cbn [Headers]. apply buildHeaders_lookup.
Qed.

(** [DecodeMessage_duplicate_headers] on a reply whose header array
    holds [ReplySerial] with the value 7 and then with the value 9: the
    decoding succeeds, and the message has the value 9. *)
Lemma DecodeMessage_duplicate_headers_witness :
  ∃ m, DecodeMessage bytesReader Wire.codec map_to_list duplicateReply = (inr m, []) ∧
       Headers m !! FieldReplySerial = Some (MkVariant "u" (VUint32 9)) ∧
       size (Headers m) = 1%nat.
Proof.
  destruct (DecodeMessage_duplicate_headers bytesReader Wire.codec map_to_list 108
              (drop 1 duplicateReply) LittleEndian
              (MkPreamble 2 0 1 0 1
                 [MkHeader 5 (MkVariant "u" (VUint32 7));
                  MkHeader 5 (MkVariant "u" (VUint32 9))])
              (MkDecoder [] LittleEndian 32))
    as (Hok & Hlast).
  - reflexivity.
  - vm_compute. reflexivity.
  - eexists. split; [|split].
    + apply (Hok [] []); [apply bytesReader_first| |]; vm_compute; reflexivity.
    + vm_compute. reflexivity.
    + vm_compute. reflexivity.
Defined.

(** ** Encoding and decoding again *)

Lemma flattenHeaders_map (entries : list (N * Variant)) :
  flattenHeaders entries = map (λ kv, MkHeader kv.1 kv.2) entries.
Proof.
  unfold flattenHeaders. induction entries as [|kv l IH] using rev_ind; [reflexivity|].
  rewrite foldl_app, map_app, IH. reflexivity.
Qed.

Lemma buildHeaders_list_to_map (hs : list header) :
  buildHeaders hs =
  list_to_map (reverse (map (λ h, (HeaderField h, HeaderVariant h)) hs)).
Proof.
  induction hs as [|h hs IH] using rev_ind; [reflexivity|].
  rewrite buildHeaders_snoc, map_app, reverse_app, IH. reflexivity.
Qed.

(** The header array that [EncodeTo] flattens gives the map back,
    whatever the order of the visit. *)
Lemma buildHeaders_flattenHeaders (range : gmap N Variant → list (N * Variant))
    (h : gmap N Variant) :
  visits range → buildHeaders (flattenHeaders (range h)) = h.
Proof.
  intros Hv. rewrite buildHeaders_list_to_map, flattenHeaders_map, map_map.
  rewrite (map_ext _ id) by (intros [k v]; reflexivity). rewrite map_id.
  assert (Hp : reverse (range h) ≡ₚ map_to_list h) by (rewrite reverse_Permutation; apply Hv).
  rewrite (list_to_map_proper (reverse (range h)) (map_to_list h)).
  - apply list_to_map_to_list.
  - rewrite Hp. apply NoDup_fst_map_to_list.
  - exact Hp.
Qed.

Section RoundTrip.

Variable reader : Reader.
Variable codec : PrimitiveCodec.
Variable rangeV : gmap N Variant → list (N * Variant).
Variable rangeE : gmap N Variant → list (N * Variant).

(** With the marker ['B'] in front of fields written in little-endian
    order, a decoding that succeeds returns the serial with its bytes
    reversed. *)
Lemma DecodeMessage_EncodeTo_big_endian (m m' : Message) (rest : list N) :
  IsValid rangeV m = None → Order m = BigEndian →
  DecodeMessage reader codec rangeV (written (EncodeTo codec rangeV rangeE m emptyTrace))
    = (inr m', rest) →
  Order m' = BigEndian ∧ Serial m' = swap32 (Serial m).
Proof.
  intros Hv Ho H.
  destruct (written_valid codec rangeV rangeE m Hv) as (marker & Hm & Hw).
  rewrite Ho in Hm. injection Hm as <-.
  rewrite Hw, assemble_layout in H.
  cbn [app] in H.
  apply DecodeMessage_order in H as (Hmk & _ & Hs & _).
  apply orderOfMarker_Some in Hmk as [[Hb _]|[_ Hmk]]; [discriminate|].
  split; [assumption|]. rewrite Hs, Hmk. reflexivity.
Qed.

(** Through a reader that fills the buffer it is given whenever the
    stream holds enough bytes, as [bytes.Reader] does, the message layer
    returns a little-endian message whose serial and body length fit a
    [uint32], provided the codec returns its header array, and leaves
    the stream at the first byte after the message: messages written one
    after the other are read one after the other. *)
Lemma DecodeMessage_EncodeTo_little_endian (m : Message) (tail : list N) :
  fills reader →
  visits rangeE →
  IsValid rangeV m = None → Order m = LittleEndian →
  Serial m < 2 ^ 32 → N.of_nat (length (Body m)) < 2 ^ 32 →
  codecReturns codec (flattenHeaders (rangeE (Headers m)))
    (replicate
       (padding (12 + length (encodeHeaders codec LittleEndian 12
                                (flattenHeaders (rangeE (Headers m))))) 8) 0
     ++ Body m ++ tail) →
  DecodeMessage reader codec rangeV
    (written (EncodeTo codec rangeV rangeE m emptyTrace) ++ tail)
    = (inr m, tail).
Proof.
  intros Hfill Hvis Hv Ho Hser Hlen Hcodec. unfold codecReturns in Hcodec.
  destruct (written_valid codec rangeV rangeE m Hv) as (marker & Hm & Hw).
  rewrite Ho in Hm. injection Hm as <-.
  rewrite Hw, assemble_layout.
  set (hs := flattenHeaders (rangeE (Headers m))) in *.
  set (bs := encodeHeaders codec LittleEndian 12 hs) in *.
  rewrite (N.mod_small _ _ Hlen).
  pose proof (getUint32_putUint32 LittleEndian (N.of_nat (length (Body m)))
                ltac:(discriminate)) as Hgl.
  pose proof (getUint32_putUint32 LittleEndian (Serial m) ltac:(discriminate)) as Hgs.
  rewrite N.mod_small in Hgl, Hgs by assumption.
  unfold putUint32 in *. rewrite <- !app_assoc. cbn [app].
  rewrite DecodeMessage_marker by (apply fills_first; assumption).
  match goal with
  | |- context [orderOfMarker ?x] => change (orderOfMarker x) with (Some LittleEndian)
  end.
  cbv iota.
  rewrite DecodeMulti_eq, Hcodec, Hgl, Hgs.
  cbn [p_length p_type p_flags p_serial p_headers].
  assert (Hal : dec_rd (dec_align 8
                  (MkDecoder (replicate (padding (12 + length bs) 8) 0 ++ Body m ++ tail)
                             LittleEndian (12 + length bs))) = Body m ++ tail).
  { unfold dec_align. cbn [dec_rd dec_pos].
    apply drop_app_length'. symmetry. apply length_replicate. }
  rewrite Hal.
  assert (Hbody : bodyRead reader (N.of_nat (length (Body m))) (Body m ++ tail)
                  = (Body m, None, tail)).
  { unfold bodyRead. destruct (N.eqb_spec (N.of_nat (length (Body m))) 0) as [Hz|Hnz].
    - destruct (Body m); [reflexivity|discriminate].
    - cbn [negb]. rewrite Nat2N.id.
      rewrite Read_filled by (try apply Hfill; rewrite length_app; lia).
      rewrite take_app_length, drop_app_length. reflexivity. }
  rewrite Hbody. cbv zeta.
  unfold hs. rewrite buildHeaders_flattenHeaders by assumption.
  assert (Heq : MkMessage LittleEndian (Type_ m) (Flags m) (Serial m) (Headers m) (Body m) = m)
    by (destruct m; cbn in Ho |- *; rewrite Ho; reflexivity).
  rewrite Heq, Hv. reflexivity.
Qed.

End RoundTrip.

(** C1, at the inputs where the code departs from it.  For a valid
    message in big-endian order whose serial is not the same with its
    bytes reversed, decoding the bytes that [EncodeTo] writes does not
    return the fields of the message: [EncodeTo] writes the marker ['B']
    in front of fields in little-endian order, so a decoding that
    succeeds returns another serial. *)
Theorem DecodeMessage_EncodeTo_big_endian_differs (reader : Reader)
    (codec : PrimitiveCodec) (rangeV rangeE : gmap N Variant → list (N * Variant))
    (m : Message) :
  IsValid rangeV m = None → Order m = BigEndian → swap32 (Serial m) ≠ Serial m →
  ¬ roundTrips m
      (DecodeMessage reader codec rangeV
         (written (EncodeTo codec rangeV rangeE m emptyTrace))).
Proof.
  intros Hv Ho Hsw Hrt. unfold roundTrips in Hrt.
  destruct (DecodeMessage reader codec rangeV
              (written (EncodeTo codec rangeV rangeE m emptyTrace)))
    as [[e|m'] rest] eqn:Hd; cbn [fst] in Hrt; [contradiction|].
  destruct Hrt as (_ & _ & Hs & _).
  apply (DecodeMessage_EncodeTo_big_endian reader codec rangeV rangeE m m' rest Hv Ho) in Hd
    as [_ Hs'].
  apply Hsw. rewrite <- Hs'. exact Hs.
Qed.

(** [DecodeMessage_EncodeTo_big_endian_differs] on a method reply in
    big-endian order with serial [1]: with the instance of the codec,
    decoding the bytes written fails at the end of the stream. *)
Lemma DecodeMessage_EncodeTo_big_endian_differs_witness :
  IsValid map_to_list replyBE = None ∧
  DecodeMessage bytesReader Wire.codec map_to_list (encodeWire replyBE) = (inl EOF, []) ∧
  ¬ roundTrips replyBE
      (DecodeMessage bytesReader Wire.codec map_to_list (encodeWire replyBE)).
Proof.
  assert (Hv : IsValid map_to_list replyBE = None) by (vm_compute; reflexivity).
  split; [exact Hv|]. split; [vm_compute; reflexivity|].
  apply (DecodeMessage_EncodeTo_big_endian_differs bytesReader Wire.codec map_to_list
           map_to_list replyBE Hv).
  - reflexivity.
  - vm_compute. discriminate.
Defined.

(** Scenario A of the specification through [EncodeTo] and
    [DecodeMessage], read through [bytes.Reader], with the encoding of
    [replyLE] after it on the stream: the first decoding returns
    scenario A and leaves the bytes of the second message. *)
Lemma DecodeMessage_EncodeTo_little_endian_witness :
  DecodeMessage bytesReader Wire.codec map_to_list
    (encodeWire scenarioA ++ encodeWire replyLE)
    = (inr scenarioA, encodeWire replyLE).
Proof.
  apply DecodeMessage_EncodeTo_little_endian.
  - apply bytesReader_fills.
  - intros h. reflexivity.
  - vm_compute. reflexivity.
  - reflexivity.
  - vm_compute. reflexivity.
  - vm_compute. reflexivity.
  - vm_compute. reflexivity.
Defined.

(** The encoding of [replyLE], whose body is [1; 2; 3; 4], through
    [DecodeMessage] with a reader that delivers one byte a call: the
    decoding succeeds with a body of four bytes, the one byte delivered
    and three zero bytes, and leaves the three bytes not delivered on
    the stream. *)
Lemma DecodeMessage_body_witness :
  ∃ m, DecodeMessage oneByteReader Wire.codec map_to_list (encodeWire replyLE)
         = (inr m, [2; 3; 4]) ∧
       length (Body m) = 4%nat ∧
       Body m = [1; 0; 0; 0].
Proof.
  exists (MkMessage LittleEndian 2 0 1 (Headers replyLE) [1; 0; 0; 0]).
  assert (H : DecodeMessage oneByteReader Wire.codec map_to_list
                (108 :: drop 1 (encodeWire replyLE))
              = (inr (MkMessage LittleEndian 2 0 1 (Headers replyLE) [1; 0; 0; 0]), [2; 3; 4]))
    by (vm_compute; reflexivity).
  destruct (DecodeMessage_body oneByteReader Wire.codec map_to_list 108
              (drop 1 (encodeWire replyLE)) LittleEndian
              (MkPreamble 2 0 1 4 1
                 [MkHeader 8 (MkVariant "g" (VSignature "u"));
                  MkHeader 5 (MkVariant "u" (VUint32 7))])
              (MkDecoder [1; 2; 3; 4] LittleEndian 32) _ _ eq_refl eq_refl H)
    as (Hlen & _ & Hbody & _).
  destruct Hbody as (k & delivered & Hd & Hk & Hb & _); [discriminate|].
  injection Hd as <-. cbn in Hk. subst k.
  split; [exact H|]. split; [exact Hlen|exact Hb].
Defined.

(** * Further properties of the message layer *)

(** ** What [DecodeMessage] returns *)

(** A message that [DecodeMessage] returns has passed [IsValid]: the
    order it carries is one of the two known ones, and no message comes
    out of an empty stream. *)
Theorem DecodeMessage_returns_valid (reader : Reader) (codec : PrimitiveCodec)
    (rangeV : gmap N Variant → list (N * Variant))
    (rd : list N) (m : Message) (rest : list N) :
  DecodeMessage reader codec rangeV rd = (inr m, rest) →
  IsValid rangeV m = None ∧ orderKnown m ∧ rd ≠ [].
Proof.
  intros H. destruct rd as [|b rd].
  { destruct (DecodeMessage_nil reader codec rangeV) as [e He].
    rewrite He in H. discriminate H. }
  apply DecodeMessage_inv in H as (_ & order & p & dec' & Ho & _ & _ & Hm & Hv).
  split; [exact Hv|]. split; [|discriminate].
  apply orderOfMarker_Some in Ho. unfold orderKnown. rewrite Hm. cbn [Order].
  destruct Ho as [[_ ->]|[_ ->]]; auto.
Qed.

Lemma DecodeMessage_returns_valid_witness :
  IsValid map_to_list replyLE = None ∧ orderKnown replyLE.
Proof.
  destruct (DecodeMessage_returns_valid bytesReader Wire.codec map_to_list
              (encodeWire replyLE) replyLE [])
    as (Hv & Ho & _).
  - vm_compute. reflexivity.
  - split; assumption.
Defined.

Lemma DecodeMulti_length (codec : PrimitiveCodec) (order : ByteOrder) (rd : list N)
    (p : Preamble) (dec' : Decoder) :
  DecodeMulti codec (MkDecoder rd order 1) = (inr p, dec') → (11 ≤ length rd)%nat.
Proof.
  intros H.
  do 11 (destruct rd as [|? rd];
         [unfold DecodeMulti, dbind, decodeByte, decodeUint32, dec_align in H;
          cbn in H; discriminate|]).
  cbn [length]. lia.
Qed.

(** A stream of fewer than twelve bytes, the marker and the fixed part
    of the preamble, never decodes to a message, whatever the codec of
    the header array. *)
Theorem DecodeMessage_short_stream (reader : Reader) (codec : PrimitiveCodec)
    (rangeV : gmap N Variant → list (N * Variant)) (rd : list N) :
  (length rd < 12)%nat →
  ∃ e, (DecodeMessage reader codec rangeV rd).1 = inl e.
Proof.
  intros Hlen. destruct rd as [|b rd].
  { destruct (DecodeMessage_nil reader codec rangeV) as [e He].
    exists e. rewrite He. reflexivity. }
  destruct (deliver reader 1 (S (length rd))) as [k [e|]] eqn:Hk.
  { exists e. rewrite (DecodeMessage_first_error reader codec rangeV b rd k e Hk).
    reflexivity. }
  destruct k as [|k].
  { eexists. rewrite (DecodeMessage_first_nothing reader codec rangeV b rd Hk).
    reflexivity. }
  rewrite DecodeMessage_marker by (exists k; exact Hk).
  destruct (orderOfMarker b) as [order|]; [|eexists; reflexivity].
  destruct (DecodeMulti codec (MkDecoder rd order 1)) as [[e|p] dec'] eqn:Hp;
    [exists e; reflexivity|].
  apply DecodeMulti_length in Hp. cbn [length] in Hlen. lia.
Qed.

Lemma DecodeMessage_short_stream_witness :
  ∃ e, (DecodeMessage bytesReader Wire.codec map_to_list
          (take 11 (encodeWire replyLE))).1 = inl e.
Proof.
  apply (DecodeMessage_short_stream bytesReader Wire.codec map_to_list
           (take 11 (encodeWire replyLE))).
  vm_compute. lia.
Defined.

(** ** The protocol version *)

Lemma DecodeMulti_proto (codec : PrimitiveCodec) (order : ByteOrder)
    (ty fl pr pr' : N) (rest : list N) :
  match DecodeMulti codec (MkDecoder (ty :: fl :: pr :: rest) order 1),
        DecodeMulti codec (MkDecoder (ty :: fl :: pr' :: rest) order 1) with
  | (inl e, d), (inl e', d') => e = e' ∧ d = d'
  | (inr p, d), (inr p', d') =>
      p_type p = p_type p' ∧ p_flags p = p_flags p' ∧ p_length p = p_length p' ∧
      p_serial p = p_serial p' ∧ p_headers p = p_headers p' ∧ d = d'
  | _, _ => False
  end.
Proof.
  destruct rest as [|l0 [|l1 [|l2 [|l3 [|s0 [|s1 [|s2 [|s3 rest]]]]]]]];
    try (vm_compute; auto; fail).
  rewrite !DecodeMulti_eq.
  destruct (decodeHeaders codec (MkDecoder rest order 12)) as [[e|hs] d]; cbn; auto 10.
Qed.

(** [EncodeTo] writes the protocol version 1 as the fourth byte of every
    message, and [DecodeMessage] never looks at that byte: two streams
    that differ in it alone decode to the same result. *)
Theorem protocol_version_unchecked (reader : Reader) (codec : PrimitiveCodec)
    (rangeV rangeE : gmap N Variant → list (N * Variant)) :
  (∀ m, IsValid rangeV m = None →
        written (EncodeTo codec rangeV rangeE m emptyTrace) !! 3%nat = Some protoVersion) ∧
  (∀ b ty fl pr pr' rest,
     (DecodeMessage reader codec rangeV (b :: ty :: fl :: pr :: rest)).1 =
     (DecodeMessage reader codec rangeV (b :: ty :: fl :: pr' :: rest)).1).
Proof.
  split.
  - intros m Hv. destruct (written_valid codec rangeV rangeE m Hv) as (marker & _ & Hw).
    rewrite Hw, assemble_layout. reflexivity.
  - intros b ty fl pr pr' rest.
    destruct (deliver reader 1 (S (length (ty :: fl :: pr :: rest)))) as [k [e|]] eqn:Hk.
    { rewrite (DecodeMessage_first_error reader codec rangeV b _ k e Hk).
      rewrite (DecodeMessage_first_error reader codec rangeV b (ty :: fl :: pr' :: rest) k e Hk).
      reflexivity. }
    destruct k as [|k].
    { rewrite (DecodeMessage_first_nothing reader codec rangeV b _ Hk).
      rewrite (DecodeMessage_first_nothing reader codec rangeV b (ty :: fl :: pr' :: rest) Hk).
      reflexivity. }
    rewrite (DecodeMessage_marker reader codec rangeV b (ty :: fl :: pr :: rest))
      by (exists k; exact Hk).
    rewrite (DecodeMessage_marker reader codec rangeV b (ty :: fl :: pr' :: rest))
      by (exists k; exact Hk).
    destruct (orderOfMarker b) as [order|]; [|reflexivity].
    pose proof (DecodeMulti_proto codec order ty fl pr pr' rest) as H.
    destruct (DecodeMulti codec (MkDecoder (ty :: fl :: pr :: rest) order 1)) as [[e|p] d],
             (DecodeMulti codec (MkDecoder (ty :: fl :: pr' :: rest) order 1)) as [[e'|p'] d'];
      try contradiction.
    + destruct H as [-> ->]. reflexivity.
    + destruct H as (-> & -> & -> & -> & -> & ->). reflexivity.
Qed.


Lemma protocol_version_unchecked_witness :
  encodeWire replyLE !! 3%nat = Some protoVersion.
Proof.
  apply (proj1 (protocol_version_unchecked bytesReader Wire.codec map_to_list map_to_list)
           replyLE).
  vm_compute. reflexivity.
Defined.

(** When the body-length field is not zero and the stream ends before
    the first byte of the body, [DecodeMessage] returns the end-of-file
    error of the reader, whether or not the message would be valid:
    [io.EOF] through [bytes.Reader], and through any reader that has
    delivered the first byte the error with which it answers a [Read]
    at the end of the stream. *)
Theorem DecodeMessage_body_eof (codec : PrimitiveCodec)
    (rangeV : gmap N Variant → list (N * Variant))
    (b : N) (rd : list N) (order : ByteOrder) (p : Preamble) (dec' : Decoder) :
  orderOfMarker b = Some order →
  DecodeMulti codec (MkDecoder rd order 1) = (inr p, dec') →
  p_length p ≠ 0 →
  dec_rd (dec_align 8 dec') = [] →
  DecodeMessage bytesReader codec rangeV (b :: rd) = (inl EOF, []) ∧
  ∀ reader k e,
    deliversFirst reader (S (length rd)) →
    deliver reader (N.to_nat (p_length p)) 0 = (k, Some e) →
    DecodeMessage reader codec rangeV (b :: rd) = (inl e, []).
Proof.
  intros Ho Hp Hlen Hrd.
  assert (Hall : ∀ reader k e,
            deliversFirst reader (S (length rd)) →
            deliver reader (N.to_nat (p_length p)) 0 = (k, Some e) →
            DecodeMessage reader codec rangeV (b :: rd) = (inl e, [])).
  { intros reader k e Hf Hd. rewrite DecodeMessage_marker by assumption.
    rewrite Ho, Hp, Hrd.
    unfold bodyRead. destruct (N.eqb_spec (p_length p) 0) as [Hz|_]; [contradiction|].
    cbn [negb]. unfold Read. cbn [length]. rewrite Hd, !Nat.min_0_r. reflexivity. }
  split; [|exact Hall].
  apply (Hall bytesReader O EOF); [apply bytesReader_first|].
  cbn. destruct (N.to_nat (p_length p)) eqn:Hn; [lia|reflexivity].
Qed.

Lemma DecodeMessage_body_eof_witness :
  DecodeMessage bytesReader Wire.codec map_to_list (take 32 (encodeWire replyLE))
    = (inl EOF, []).
Proof.
  apply (DecodeMessage_body_eof Wire.codec map_to_list 108
           (drop 1 (take 32 (encodeWire replyLE))) LittleEndian
           (MkPreamble 2 0 1 4 1
              [MkHeader 8 (MkVariant "g" (VSignature "u"));
               MkHeader 5 (MkVariant "u" (VUint32 7))])
           (MkDecoder [] LittleEndian 32)).
  - reflexivity.
  - vm_compute. reflexivity.
  - discriminate.
  - reflexivity.
Defined.

(** ** The validator and the order of the headers *)

Lemma IsValid_None_inv (range : gmap N Variant → list (N * Variant)) (m : Message) :
  IsValid range m = None →
  orderKnown m ∧ typeKnown m ∧ checkHeaders (range (Headers m)) = None ∧
  requiredPresent m ∧ signaturePresent m.
Proof.
  unfold IsValid, orderKnown. intros H.
  assert (Ho : Order m = LittleEndian ∨ Order m = BigEndian)
    by (destruct (Order m); auto; discriminate).
  assert (H' :
    (if negb (N.land (Flags m) (not8 (N.lor NoAutoStart NoReplyExpected)) =? 0)
     then Some (InvalidMessageError "invalid flags")
     else if (Type_ m =? 0) || (typeMax <=? Type_ m)
          then Some (InvalidMessageError "invalid message type")
          else match checkHeaders (range (Headers m)) with
               | Some e => Some e
               | None =>
                   match checkRequired (default [] (requiredFields !! Type_ m)) (Headers m) with
                   | Some e => Some e
                   | None =>
                       if negb (length (Body m) =? 0)%nat
                       then match Headers m !! FieldSignature with
                            | Some _ => None
                            | None => Some (InvalidMessageError "missing signature")
                            end
                       else None
                   end
               end) = None)
    by (destruct Ho as [Ho|Ho]; rewrite Ho in H; exact H).
  clear H. split; [exact Ho|].
  destruct (negb (N.land (Flags m) (not8 (N.lor NoAutoStart NoReplyExpected)) =? 0));
    [discriminate|].
  destruct ((Type_ m =? 0) || (typeMax <=? Type_ m)) eqn:Ht; [discriminate|].
  destruct (checkHeaders (range (Headers m))) eqn:Hh; [discriminate|].
  destruct (checkRequired _ _) eqn:Hr; [discriminate|].
  split; [apply typeKnown_iff, Ht|]. split; [reflexivity|].
  split; [exact (proj1 (checkRequired_None _ _) Hr)|].
  intros Hne. apply body_empty_dec in Hne. rewrite Hne in H'.
  destruct (Headers m !! FieldSignature); [eauto|discriminate].
Qed.

Lemma checkHeaders_headerErrors (hs : list (N * Variant)) (e : error) :
  checkHeaders hs = Some e → e ∈ headerErrors.
Proof.
  intros H. apply checkHeaders_Some in H as (pre & [k v] & post & _ & _ & _ & ->).
  rewrite entryError_dec. unfold headerErrors.
  destruct ((k =? 0) || (fieldMax <=? k)); set_solver.
Qed.

Lemma checkHeaders_Permutation (l1 l2 : list (N * Variant)) :
  l1 ≡ₚ l2 → checkHeaders l1 = None → checkHeaders l2 = None.
Proof.
  intros Hp H. apply checkHeaders_None. rewrite <- Hp. apply checkHeaders_None, H.
Qed.

(** Whether a message is valid does not depend on the order in which
    [range] visits the header map.  The error does, and only between the
    two errors of the loop over the headers: for two orders of visit the
    errors are the same, or each is one of these two. *)
Theorem IsValid_iteration_order
    (range1 range2 : gmap N Variant → list (N * Variant)) (m : Message) :
  visits range1 → visits range2 →
  (IsValid range1 m = None ↔ IsValid range2 m = None) ∧
  (IsValid range1 m = IsValid range2 m ∨
   ∃ e1 e2, IsValid range1 m = Some e1 ∧ IsValid range2 m = Some e2 ∧
            e1 ∈ headerErrors ∧ e2 ∈ headerErrors).
Proof.
  intros Hv1 Hv2.
  assert (Hp : range1 (Headers m) ≡ₚ range2 (Headers m))
    by (rewrite (Hv1 (Headers m)), (Hv2 (Headers m)); reflexivity).
  assert (Hcases :
    IsValid range1 m = IsValid range2 m ∨
    ∃ e1 e2, IsValid range1 m = Some e1 ∧ IsValid range2 m = Some e2 ∧
             e1 ∈ headerErrors ∧ e2 ∈ headerErrors).
  { unfold IsValid. destruct (Order m); [| |left; reflexivity];
      (destruct (negb (N.land (Flags m) (not8 (N.lor NoAutoStart NoReplyExpected)) =? 0));
         [left; reflexivity|];
       destruct ((Type_ m =? 0) || (typeMax <=? Type_ m)); [left; reflexivity|];
       destruct (checkHeaders (range1 (Headers m))) as [e1|] eqn:H1,
                (checkHeaders (range2 (Headers m))) as [e2|] eqn:H2;
       [right; exists e1, e2;
        split; [reflexivity|]; split; [reflexivity|];
        split; [exact (checkHeaders_headerErrors _ _ H1)|exact (checkHeaders_headerErrors _ _ H2)]
       |apply (checkHeaders_Permutation _ _ (symmetry Hp)) in H2; congruence
       |apply (checkHeaders_Permutation _ _ Hp) in H1; congruence
       |left; reflexivity]). }
  split; [|exact Hcases].
  destruct Hcases as [->|(e1 & e2 & -> & -> & _)]; [tauto|split; discriminate].
Qed.

(** On [mixedHeaders] the two orders of visit of its two headers give
    the two different errors. *)
Lemma IsValid_iteration_order_witness :
  IsValid map_to_list mixedHeaders = Some (InvalidMessageError "invalid header") ∧
  IsValid (λ h, reverse (map_to_list h)) mixedHeaders =
    Some (InvalidMessageError "invalid type of header field") ∧
  (IsValid map_to_list mixedHeaders = None ↔
   IsValid (λ h, reverse (map_to_list h)) mixedHeaders = None).
Proof.
  split; [vm_compute; reflexivity|]. split; [vm_compute; reflexivity|].
  apply (IsValid_iteration_order map_to_list (λ h, reverse (map_to_list h)) mixedHeaders).
  - intros h. reflexivity.
  - intros h. apply reverse_Permutation.
Defined.

(** Every error of [IsValid] is an [InvalidMessageError] with one of
    seven texts. *)
Theorem IsValid_errors (range : gmap N Variant → list (N * Variant)) (m : Message)
    (e : error) :
  IsValid range m = Some e → e ∈ validationErrors.
Proof.
  unfold IsValid, validationErrors. intros H.
  assert (Hh : ∀ e', e' ∈ headerErrors → e' ∈ validationErrors).
  { intros e' He'. unfold headerErrors in He'.
    apply elem_of_cons in He' as [->|He']; [repeat constructor|].
    apply elem_of_cons in He' as [->|He']; [repeat constructor|inversion He']. }
  destruct (Order m);
    [| |injection H as <-; repeat constructor];
    (destruct (negb (N.land (Flags m) (not8 (N.lor NoAutoStart NoReplyExpected)) =? 0));
       [injection H as <-; repeat constructor|];
     destruct ((Type_ m =? 0) || (typeMax <=? Type_ m));
       [injection H as <-; repeat constructor|];
     destruct (checkHeaders (range (Headers m))) as [e1|] eqn:H1;
       [injection H as <-; apply Hh, (checkHeaders_headerErrors _ _ H1)|];
     destruct (checkRequired _ _) as [e2|] eqn:H2;
       [injection H as <-; apply checkRequired_Some in H2; subst e2; repeat constructor|];
     destruct (negb (length (Body m) =? 0)%nat); [|discriminate];
     destruct (Headers m !! FieldSignature); [discriminate|];
     injection H as <-; repeat constructor).
Qed.

Lemma IsValid_errors_witness :
  InvalidMessageError "missing required header" ∈ validationErrors.
Proof.
  apply (IsValid_errors map_to_list scenarioB). vm_compute. reflexivity.
Defined.

(** ** The registry and the headers of a valid message *)

(** The table of required fields has an entry for exactly the message
    types that [IsValid] accepts; every entry is a non-empty list of
    field codes that the registry of types knows, and none of them is
    [Signature]. *)
Theorem requiredFields_registered (t : N) :
  (is_Some (requiredFields !! t) ↔ t ≠ 0 ∧ t < typeMax) ∧
  (∀ fs, requiredFields !! t = Some fs →
         fs ≠ [] ∧ ∀ f, f ∈ fs → is_Some (fieldTypes !! f) ∧ f ≠ FieldSignature).
Proof.
  destruct (decide (t ≠ 0 ∧ t < typeMax)) as [Hk|Hk].
  - assert (t = 1 ∨ t = 2 ∨ t = 3 ∨ t = 4) as [->|[->|[->| ->]]]
      by (unfold typeMax in Hk; lia);
      (split; [split; [intros _; exact Hk|intros _; vm_compute; eauto]|];
       intros fs Hfs; vm_compute in Hfs; injection Hfs as <-;
       split; [discriminate|];
       intros f Hf;
       repeat (apply elem_of_cons in Hf as [->|Hf];
               [split; [vm_compute; eauto|discriminate]|]);
       inversion Hf).
  - assert (Hnone : requiredFields !! t = None).
    { unfold requiredFields, TypeMethodCall, TypeMethodReply, TypeError, TypeSignal, typeMax in *.
      simpl. repeat (rewrite lookup_insert_ne by lia). apply lookup_empty. }
    rewrite Hnone. split.
    + split; [intros [x Hx]; discriminate|intros H; contradiction].
    + intros fs Hfs. discriminate.
Qed.

Lemma two_keys_size (h : gmap N Variant) (k1 k2 : N) :
  k1 ≠ k2 → is_Some (h !! k1) → is_Some (h !! k2) → (2 ≤ size h)%nat.
Proof.
  intros Hne H1 H2.
  pose proof (map_size_delete_Some k1 h H1) as Hd.
  assert (Hs : size (delete k1 h) ≠ 0%nat).
  { apply (map_size_ne_0_lookup_2 _ k2). rewrite lookup_delete_ne by assumption. exact H2. }
  lia.
Qed.

(** A valid message has at least one header, the first field that its
    type requires, and at least two when its body is not empty: the
    [Signature] header is none of the required ones. *)
Theorem IsValid_headers_present (range : gmap N Variant → list (N * Variant))
    (m : Message) :
  IsValid range m = None →
  Headers m ≠ ∅ ∧ (1 ≤ size (Headers m))%nat ∧ (Body m ≠ [] → (2 ≤ size (Headers m))%nat).
Proof.
  intros H. apply IsValid_None_inv in H as (_ & Ht & _ & Hr & Hs).
  apply typeKnown_iff in Ht.
  assert (Hreq : ∃ f, f ∈ default [] (requiredFields !! Type_ m) ∧ f ≠ FieldSignature).
  { rewrite (requiredFields_known _ Ht). cbn [default].
    destruct (Type_ m =? TypeMethodCall);
      [|destruct (Type_ m =? TypeMethodReply); [|destruct (Type_ m =? TypeError)]];
      eexists; (split; [apply list_elem_of_here|discriminate]). }
  destruct Hreq as (f & Hf & Hne). specialize (Hr f Hf).
  assert (Hsz : size (Headers m) ≠ 0%nat) by (apply (map_size_ne_0_lookup_2 _ f), Hr).
  split; [apply map_size_non_empty_iff, Hsz|]. split; [lia|].
  intros Hb. apply (two_keys_size _ f FieldSignature); auto.
Qed.

Lemma IsValid_headers_present_witness :
  (2 ≤ size (Headers replyLE))%nat.
Proof.
  destruct (IsValid_headers_present map_to_list replyLE) as (_ & _ & H).
  - vm_compute. reflexivity.
  - apply H. discriminate.
Defined.

(** Setting a header to a value that is in order for its field code
    keeps a valid message valid, whether the header was there before or
    not. *)
Theorem withHeader_valid (range : gmap N Variant → list (N * Variant))
    (k : N) (v : Variant) (m : Message) :
  visits range → Flags m < 256 →
  IsValid range m = None → entryOk (k, v) →
  IsValid range (withHeader k v m) = None.
Proof.
  intros Hv Hb H Hkv.
  apply (IsValid_None range Hv m Hb) in H as (Ho & Hf & Ht & Hh & Hr & Hs).
  apply (IsValid_None range Hv (withHeader k v m) Hb).
  split; [exact Ho|]. split; [exact Hf|]. split; [exact Ht|].
  split; [apply withHeader_headersOk; assumption|].
  split; [apply withHeader_requiredPresent; assumption|].
  intros Hbody. unfold withHeader. cbn [Headers].
  destruct (decide (k = FieldSignature)) as [->|Hne].
  - rewrite lookup_insert_eq. eauto.
  - rewrite lookup_insert_ne by assumption. apply Hs. exact Hbody.
Qed.

(** Scenario A with a [Destination] header added. *)
Lemma withHeader_valid_witness :
  IsValid map_to_list
    (withHeader FieldDestination (MkVariant "s" (VString "org.x")) scenarioA) = None.
Proof.
  apply (withHeader_valid map_to_list).
  - intros h. reflexivity.
  - vm_compute. reflexivity.
  - vm_compute. reflexivity.
  - vm_compute. split; [discriminate|]. split; [eauto|reflexivity].
Defined.

(** ** Errors of the sink *)

(** On a valid message [EncodeTo] returns no error exactly when the one
    [Write] took every byte and reported no error.  An error that the
    sink reports is returned as it is, and a [Write] that takes fewer
    bytes without an error gives [io.ErrShortWrite]. *)
Theorem EncodeTo_sink_error (codec : PrimitiveCodec)
    (rangeV rangeE : gmap N Variant → list (N * Variant))
    (W : Type) (HW : Writer W) (m : Message) (out out' : W) (marker : N)
    (n : nat) (e : option error) :
  IsValid rangeV m = None →
  markerOfOrder (Order m) = Some marker →
  Write (assemble codec rangeE marker m) out = (n, e, out') →
  (n ≤ length (assemble codec rangeE marker m))%nat →
  (EncodeTo codec rangeV rangeE m out).2 = out' ∧
  (∀ err, e = Some err → (EncodeTo codec rangeV rangeE m out).1 = Some err) ∧
  (e = None → (n < length (assemble codec rangeE marker m))%nat →
   (EncodeTo codec rangeV rangeE m out).1 = Some ErrShortWrite) ∧
  ((EncodeTo codec rangeV rangeE m out).1 = None ↔
   e = None ∧ n = length (assemble codec rangeE marker m)).
Proof.
  intros Hv Hm Hw Hn. unfold EncodeTo. rewrite Hv, Hm. unfold WriteTo.
  rewrite assemble_nonempty, Hw.
  destruct (Nat.ltb_spec (length (assemble codec rangeE marker m)) n) as [Hlt|_]; [lia|].
  destruct e as [err|].
  - split; [reflexivity|]. split; [intros ? [= <-]; reflexivity|].
    split; [discriminate|]. split; [discriminate|intros [? _]; discriminate].
  - destruct (Nat.eqb_spec n (length (assemble codec rangeE marker m))) as [Heq|Hne].
    + split; [reflexivity|]. split; [discriminate|]. split; [lia|].
      split; [auto|reflexivity].
    + split; [reflexivity|]. split; [discriminate|]. split; [reflexivity|].
      split; [discriminate|intros [_ ?]; contradiction].
Qed.

(** Scenario A into a closed sink: the error of the sink comes back. *)
Lemma EncodeTo_sink_error_witness :
  (EncodeTo Wire.codec map_to_list map_to_list scenarioA (MkClosed 0)).1 =
  Some (TransportError "closed").
Proof.
  destruct (EncodeTo_sink_error Wire.codec map_to_list map_to_list Closed Closed_Writer
              scenarioA (MkClosed 0) (MkClosed 1) (char "l") 0
              (Some (TransportError "closed"))) as (_ & He & _).
  - vm_compute. reflexivity.
  - reflexivity.
  - reflexivity.
  - lia.
  - apply He. reflexivity.
Defined.

(** * Properties of the unit manager *)

(** An error is a missing unit or a failed load only when it is a
    [db.Error] with that name: never both, and neither for [nil] or for
    an error of another type.  [ErrNoSuchUnit] is a missing unit. *)
Theorem SystemdError_kinds (err : option Systemd.goerror) :
  (Systemd.IsNoSuchUnit err = true → Systemd.IsLoadFailed err = false) ∧
  (Systemd.IsNoSuchUnit err = true ↔ err = Some Systemd.ErrNoSuchUnit) ∧
  (Systemd.IsLoadFailed err = true ↔
   err = Some (Systemd.DbError "org.freedesktop.systemd1.LoadFailed")) ∧
  (∀ name, Systemd.SystemdError None name = false) ∧
  (∀ msg name, Systemd.SystemdError (Some (Systemd.OtherError msg)) name = false).
Proof.
  unfold Systemd.IsNoSuchUnit, Systemd.IsLoadFailed, Systemd.ErrNoSuchUnit,
    Systemd.SystemdError.
  destruct err as [[n|msg]|].
  - split; [|split; [|split; [|split]]]; try reflexivity.
    + intros H. apply String.eqb_eq in H. subst n. reflexivity.
    + rewrite String.eqb_eq. split; [intros ->; reflexivity|intros [= ->]; reflexivity].
    + rewrite String.eqb_eq. split; [intros ->; reflexivity|intros [= ->]; reflexivity].
  - split; [|split; [|split; [|split]]]; try reflexivity; try discriminate;
      split; discriminate.
  - split; [|split; [|split; [|split]]]; try reflexivity; try discriminate;
      split; discriminate.
Qed.

Lemma SystemdError_kinds_witness :
  Systemd.IsLoadFailed (Some Systemd.ErrNoSuchUnit) = false.
Proof.
  apply (proj1 (SystemdError_kinds (Some Systemd.ErrNoSuchUnit))). reflexivity.
Defined.

Ltac elem_absurd H :=
  repeat (apply elem_of_cons in H as [H|H]; [discriminate H|]);
  apply elem_of_nil in H; contradiction.

Ltac elem_found :=
  repeat first [apply list_elem_of_here | apply list_elem_of_further].

Ltac calls_iff :=
  split; intros H;
  first [ solve [repeat split; reflexivity]
        | solve [elem_found]
        | solve [elem_absurd H]
        | solve [discriminate H]
        | solve [destruct H as (? & ?); discriminate]
        | solve [destruct H as (? & ? & ?); discriminate]
        | solve [destruct H as (? & ? & ? & ?); discriminate]
        | solve [destruct H as (? & ? & ? & ? & ?); discriminate] ].

(** Whatever the environment answers, a run of [StartAndEnableUnit]
    makes one of five sequences of calls, the lines of the log apart:
    [StartUnit] alone; [StartUnit] and [os.Stat]; these and
    [EnableUnitFiles]; these, [GetUnitProperties] and a second
    [StartUnit]; or the same with one [Reload] before the second
    [StartUnit].  The answers decide which.  [StartUnit] alone is made
    exactly when its error is neither a missing unit nor a failed load,
    and [os.Stat] is called exactly otherwise.  [EnableUnitFiles] is
    called exactly when, besides, [os.Stat] has succeeded, and only ever
    on the one path, with [runtime] false and [force] true.
    [GetUnitProperties] is called exactly when, besides,
    [EnableUnitFiles] has succeeded, and [Reload] exactly when, besides,
    [GetUnitProperties] has succeeded with a load state ["not-found"] or
    with [NeedDaemonReload] true. *)
Theorem StartAndEnableUnit_calls (env : Systemd.Env) (name path mode : string)
    (t0 : list Systemd.Call) :
  let first := Systemd.startUnit env t0 name mode in
  let retry := Systemd.IsNoSuchUnit first.2 || Systemd.IsLoadFailed first.2 in
  let t1 := t0 ++ [Systemd.CStartUnit name mode] in
  let t2 := t1 ++ [Systemd.CStat path] in
  let t3 := t2 ++ [Systemd.CEnableUnitFiles [path] false true] in
  let props := Systemd.getUnitProperties env t3 name in
  let wanted := Systemd.propIsString props.1 "LoadState" "not-found"
                || Systemd.propIsTrue props.1 "NeedDaemonReload" in
  ∃ new,
    (Systemd.StartAndEnableUnit env name path mode t0).2 = t0 ++ new ∧
    Systemd.calls new ∈
      [ [Systemd.CStartUnit name mode];
        [Systemd.CStartUnit name mode; Systemd.CStat path];
        [Systemd.CStartUnit name mode; Systemd.CStat path;
         Systemd.CEnableUnitFiles [path] false true];
        [Systemd.CStartUnit name mode; Systemd.CStat path;
         Systemd.CEnableUnitFiles [path] false true;
         Systemd.CGetUnitProperties name; Systemd.CStartUnit name mode];
        [Systemd.CStartUnit name mode; Systemd.CStat path;
         Systemd.CEnableUnitFiles [path] false true;
         Systemd.CGetUnitProperties name; Systemd.CReload;
         Systemd.CStartUnit name mode] ] ∧
    (Systemd.calls new = [Systemd.CStartUnit name mode] ↔ retry = false) ∧
    (Systemd.CStat path ∈ Systemd.calls new ↔ retry = true) ∧
    (Systemd.CEnableUnitFiles [path] false true ∈ Systemd.calls new ↔
     retry = true ∧ Systemd.stat env t1 path = None) ∧
    (∀ files runtime force,
       Systemd.CEnableUnitFiles files runtime force ∈ Systemd.calls new →
       files = [path] ∧ runtime = false ∧ force = true) ∧
    (Systemd.CGetUnitProperties name ∈ Systemd.calls new ↔
     retry = true ∧ Systemd.stat env t1 path = None ∧
     Systemd.enableUnitFiles env t2 [path] false true = None) ∧
    (Systemd.CReload ∈ Systemd.calls new ↔
     retry = true ∧ Systemd.stat env t1 path = None ∧
     Systemd.enableUnitFiles env t2 [path] false true = None ∧
     props.2 = None ∧ wanted = true).
Proof.
  cbv zeta. unfold Systemd.StartAndEnableUnit, Systemd.IsUnitProperty.
  destruct (Systemd.startUnit env t0 name mode) as [status err]. cbn [fst snd].
  destruct (Systemd.IsNoSuchUnit err || Systemd.IsLoadFailed err).
  2: { exists [Systemd.CStartUnit name mode]. split; [reflexivity|].
       change (Systemd.calls [Systemd.CStartUnit name mode])
         with [Systemd.CStartUnit name mode].
       split; [elem_found|]. split; [calls_iff|]. split; [calls_iff|].
       split; [calls_iff|]. split; [intros files r f H; elem_absurd H|].
       split; calls_iff. }
  destruct (Systemd.stat env _ path).
  { exists [Systemd.CStartUnit name mode; Systemd.CStat path].
    split; [rewrite <- !app_assoc; reflexivity|].
    change (Systemd.calls [Systemd.CStartUnit name mode; Systemd.CStat path])
      with [Systemd.CStartUnit name mode; Systemd.CStat path].
    split; [elem_found|]. split; [calls_iff|]. split; [calls_iff|].
    split; [calls_iff|]. split; [intros files r f H; elem_absurd H|].
    split; calls_iff. }
  destruct (Systemd.enableUnitFiles env _ [path] false true).
  { exists [Systemd.CStartUnit name mode; Systemd.CStat path;
            Systemd.CEnableUnitFiles [path] false true].
    split; [rewrite <- !app_assoc; reflexivity|].
    change (Systemd.calls [Systemd.CStartUnit name mode; Systemd.CStat path;
                           Systemd.CEnableUnitFiles [path] false true])
      with [Systemd.CStartUnit name mode; Systemd.CStat path;
            Systemd.CEnableUnitFiles [path] false true].
    split; [elem_found|]. split; [calls_iff|]. split; [calls_iff|].
    split; [calls_iff|].
    split.
    { intros files r f H.
      repeat (apply elem_of_cons in H as [H|H];
              [first [discriminate H
                     | injection H as -> -> ->; repeat split; reflexivity]|]).
      apply elem_of_nil in H. contradiction. }
    split; calls_iff. }
  destruct (Systemd.getUnitProperties env _ name) as [p perr]. cbn [fst snd].
  destruct perr as [e|].
  { destruct (Systemd.startUnit env _ name mode).
    eexists. split; [cbn [snd]; rewrite <- !app_assoc; reflexivity|].
    match goal with
    | |- context [Systemd.calls ?l] =>
        change (Systemd.calls l)
          with [Systemd.CStartUnit name mode; Systemd.CStat path;
                Systemd.CEnableUnitFiles [path] false true;
                Systemd.CGetUnitProperties name; Systemd.CStartUnit name mode]
    end.
    split; [elem_found|]. split; [calls_iff|]. split; [calls_iff|].
    split; [calls_iff|].
    split.
    { intros files r f H.
      repeat (apply elem_of_cons in H as [H|H];
              [first [discriminate H
                     | injection H as -> -> ->; repeat split; reflexivity]|]).
      apply elem_of_nil in H. contradiction. }
    split; calls_iff. }
  destruct (Systemd.propIsString p "LoadState" "not-found"
            || Systemd.propIsTrue p "NeedDaemonReload").
  - destruct (Systemd.reload env _) as [e|];
      (eexists; split; [cbn [snd]; rewrite <- !app_assoc; reflexivity|];
       match goal with
       | |- context [Systemd.calls ?l] =>
           change (Systemd.calls l)
             with [Systemd.CStartUnit name mode; Systemd.CStat path;
                   Systemd.CEnableUnitFiles [path] false true;
                   Systemd.CGetUnitProperties name; Systemd.CReload;
                   Systemd.CStartUnit name mode]
       end;
       split; [elem_found|]; split; [calls_iff|]; split; [calls_iff|];
       split; [calls_iff|];
       (split;
        [intros files r f H;
         repeat (apply elem_of_cons in H as [H|H];
                 [first [discriminate H
                        | injection H as -> -> ->; repeat split; reflexivity]|]);
         apply elem_of_nil in H; contradiction|]);
       split; calls_iff).
  - eexists. split; [cbn [snd]; rewrite <- !app_assoc; reflexivity|].
    match goal with
    | |- context [Systemd.calls ?l] =>
        change (Systemd.calls l)
          with [Systemd.CStartUnit name mode; Systemd.CStat path;
                Systemd.CEnableUnitFiles [path] false true;
                Systemd.CGetUnitProperties name; Systemd.CStartUnit name mode]
    end.
    split; [elem_found|]. split; [calls_iff|]. split; [calls_iff|].
    split; [calls_iff|].
    split.
    { intros files r f H.
      repeat (apply elem_of_cons in H as [H|H];
              [first [discriminate H
                     | injection H as -> -> ->; repeat split; reflexivity]|]).
      apply elem_of_nil in H. contradiction. }
    split; calls_iff.
Qed.

(** What [StartAndEnableUnit] returns.  When the first [StartUnit]
    reports neither a missing unit nor a failed load, its result is
    returned and nothing else is called.  Otherwise a path that
    [os.Stat] does not find gives [ErrNoSuchUnit], also after a failed
    load; an error of [EnableUnitFiles] is returned as it is; and in
    every other case the result is that of a second [StartUnit], made
    last, whatever [GetUnitProperties] and [Reload] answered. *)
Theorem StartAndEnableUnit_result (env : Systemd.Env) (name path mode : string)
    (t0 : list Systemd.Call) :
  let first := Systemd.startUnit env t0 name mode in
  let t1 := t0 ++ [Systemd.CStartUnit name mode] in
  let t2 := t1 ++ [Systemd.CStat path] in
  let run := Systemd.StartAndEnableUnit env name path mode t0 in
  (Systemd.IsNoSuchUnit first.2 || Systemd.IsLoadFailed first.2 = false →
   run = (first, t1)) ∧
  (Systemd.IsNoSuchUnit first.2 || Systemd.IsLoadFailed first.2 = true →
   (∀ e, Systemd.stat env t1 path = Some e →
         run = (("", Some Systemd.ErrNoSuchUnit), t2)) ∧
   (Systemd.stat env t1 path = None →
    (∀ e, Systemd.enableUnitFiles env t2 [path] false true = Some e →
          run = (("", Some e), t2 ++ [Systemd.CEnableUnitFiles [path] false true])) ∧
    (Systemd.enableUnitFiles env t2 [path] false true = None →
     ∃ t, run = (Systemd.startUnit env t name mode, t ++ [Systemd.CStartUnit name mode])))).
Proof.
  cbv zeta. unfold Systemd.StartAndEnableUnit.
  destruct (Systemd.startUnit env t0 name mode) as [status err]. cbn [snd].
  destruct (Systemd.IsNoSuchUnit err || Systemd.IsLoadFailed err).
  - split; [discriminate|]. intros _. split.
    + intros e He. rewrite He. reflexivity.
    + intros Hs. rewrite Hs. split.
      * intros e He. rewrite He. reflexivity.
      * intros He. rewrite He.
        destruct (Systemd.IsUnitProperty env name _ _) as [[ok perr] t].
        eexists. reflexivity.
  - split; [reflexivity|discriminate].
Qed.

(** A run in the environment [freshUnit]: the unit file is enabled, the
    manager reloaded, and the second [StartUnit] succeeds. *)
Lemma StartAndEnableUnit_result_witness :
  (Systemd.StartAndEnableUnit Systemd.freshUnit "a.service" "/etc/a.service" "fail" []).1 =
    ("done", None) ∧
  Systemd.calls
    (Systemd.StartAndEnableUnit Systemd.freshUnit "a.service" "/etc/a.service" "fail" []).2 =
    [Systemd.CStartUnit "a.service" "fail"; Systemd.CStat "/etc/a.service";
     Systemd.CEnableUnitFiles ["/etc/a.service"] false true;
     Systemd.CGetUnitProperties "a.service"; Systemd.CReload;
     Systemd.CStartUnit "a.service" "fail"].
Proof.
  split; [|vm_compute; reflexivity].
  destruct (StartAndEnableUnit_result Systemd.freshUnit "a.service" "/etc/a.service" "fail" [])
    as [_ H].
  destruct (H eq_refl) as [_ H'].
  destruct (H' eq_refl) as [_ H''].
  destruct (H'' eq_refl) as [t Ht].
  vm_compute. reflexivity.
Defined.

(** [StartAndEnableUnit_calls] in two environments.  With the unit file
    on disk and a manager that asks for a reload, the six calls are
    made, [Reload] among them.  With no unit file on disk, the run stops
    after [os.Stat]: [EnableUnitFiles] is not called. *)
Lemma StartAndEnableUnit_calls_witness :
  (∃ new,
     (Systemd.StartAndEnableUnit Systemd.freshUnit "a.service" "/etc/a.service" "fail" []).2
       = [] ++ new ∧
     Systemd.CEnableUnitFiles ["/etc/a.service"] false true ∈ Systemd.calls new ∧
     Systemd.CReload ∈ Systemd.calls new) ∧
  (∃ new,
     (Systemd.StartAndEnableUnit Systemd.missingFile "a.service" "/etc/a.service" "fail" []).2
       = [] ++ new ∧
     Systemd.CStat "/etc/a.service" ∈ Systemd.calls new ∧
     ¬ Systemd.CEnableUnitFiles ["/etc/a.service"] false true ∈ Systemd.calls new).
Proof.
  split.
  - destruct (StartAndEnableUnit_calls Systemd.freshUnit "a.service" "/etc/a.service" "fail" [])
      as (new & Hnew & _ & _ & _ & Hen & _ & _ & Hre).
    exists new. split; [exact Hnew|]. split.
    + apply Hen. split; reflexivity.
    + apply Hre. repeat split; reflexivity.
  - destruct (StartAndEnableUnit_calls Systemd.missingFile "a.service" "/etc/a.service"
                "fail" [])
      as (new & Hnew & _ & _ & Hst & Hen & _).
    exists new. split; [exact Hnew|]. split.
    + apply Hst. reflexivity.
    + intros H. apply Hen in H as [_ H]. discriminate H.
Defined.
